(** * Slated (scheduled tasks for Obsidian): plugin entry point and settings

    A shallow embedding of [src/main.ts] (the plugin class [SlatedPlugin],
    its [file-open] handler, its preview post-processor [renderMovedTasks]
    and the [SettingsTab]) and of the settings file that declares
    [ISettings], [defaultSettings] and [settingsWithDefaults].

    JavaScript objects used as records are finite maps from property names
    to values; JavaScript strings that are sliced and trimmed are lists of
    UTF-16 code units; DOM nodes are a tree whose elements carry the
    identity of the underlying object.

    The task modules ([task-handler.ts], [task-line.ts], [vault.ts]) are
    not embedded.  Where a statement is about them, the definition it is
    stated on follows the specification and says so: the repeat rule
    evaluator and the relocation engine.  What [main.ts] imports from
    ['./settings'] (an exported [defaultSettings], the class
    [SettingsInstance]) is not what the settings file at hand exports, and
    is taken as a parameter. *)

From Stdlib Require Import ZArith NArith List String Ascii Bool Lia.
From stdpp Require Import base gmap strings list fin_maps.

Open Scope string_scope.
Open Scope list_scope.

Set Warnings "-register-all".

(* ===================================================================== *)
(** ** Settings: [ISettings], [defaultSettings], [settingsWithDefaults]  *)
(* ===================================================================== *)

Module Settings.

(** The values a settings property holds: strings ([tasksHeader], the
    calendar options, which are string literal unions), booleans, and
    [undefined], which [Partial<ISettings>] admits for a property that is
    present. *)
Inductive value : Type :=
| VString (s : string)
| VBool (b : bool)
| VUndefined.

#[global] Instance value_eq_dec : EqDecision value.
Proof. solve_decision. Defined.

Inductive ty : Type := TString | TBool.

(** [interface ISettings]: property name and declared type. *)
Definition ISettings : list (string * ty) :=
  [ ("tasksHeader", TString);
    ("blankLineAfterHeader", TBool);
    ("preserveMovedTasks", TBool);
    ("localeOverride", TString);
    ("weekStart", TString) ].

Definition has_type (v : value) (t : ty) : bool :=
  match v, t with
  | VString _, TString => true
  | VBool _, TBool => true
  | _, _ => false
  end.

Definition field_type (k : string) : option ty :=
  snd <$> List.find (fun p => String.eqb (fst p) k) ISettings.

(** [const defaultSettings: ISettings = { ... }], properties in the order
    of the object literal. *)
Definition defaultSettings : gmap string value :=
  <["weekStart" := VString "locale"]>
  (<["localeOverride" := VString "system-default"]>
  (<["preserveMovedTasks" := VBool false]>
  (<["blankLineAfterHeader" := VBool true]>
  (<["tasksHeader" := VString "## Tasks"]> ∅)))).

(** Object spread [{ ...a, ...b }]: a new object that receives the own
    properties of [a], then those of [b]; a property of [b] replaces the
    one of [a].  ([∪] on [gmap] keeps the left operand's binding.) *)
Definition spread (a b : gmap string value) : gmap string value := b ∪ a.

(** [settingsWithDefaults = (settings) => ({ ...defaultSettings, ...settings })] *)
Definition settingsWithDefaults (settings : gmap string value)
  : gmap string value :=
  spread defaultSettings settings.

(** A property of a complete [ISettings]: declared, with a value of its
    declared type. *)
Definition declared (k : string) (v : value) : Prop :=
  match field_type k with
  | Some t => has_type v t = true
  | None => False
  end.

#[global] Instance declared_dec k v : Decision (declared k v).
Proof. unfold declared. destruct (field_type k); apply _. Defined.

(** A property of a [Partial<ISettings>]: declared, with a value of its
    declared type or [undefined]. *)
Definition well_typed (k : string) (v : value) : Prop :=
  match field_type k with
  | Some t => v = VUndefined ∨ has_type v t = true
  | None => False
  end.

#[global] Instance well_typed_dec k v : Decision (well_typed k v).
Proof. unfold well_typed. destruct (field_type k); apply _. Defined.

(** [Partial<ISettings>]: only declared properties, any of them possibly
    missing, or present with the value [undefined]. *)
Definition isPartial (s : gmap string value) : Prop :=
  map_Forall well_typed s.

(** A complete [ISettings]: every declared property is present, and every
    property has a value of its declared type. *)
Definition isComplete (s : gmap string value) : Prop :=
  map_Forall declared s ∧ Forall (fun p => is_Some (s !! fst p)) ISettings.

(** No property is present with the value [undefined]. *)
Definition noUndefined (s : gmap string value) : Prop :=
  map_Forall (fun _ v => v ≠ VUndefined) s.

End Settings.

(* ===================================================================== *)
(** ** The [file-open] handler of [SlatedPlugin.onload]                  *)
(* ===================================================================== *)

Module Controller.

(** The part of Obsidian's [TFile] the handler reads. *)
Record TFile : Type := mkTFile { path : string; basename : string }.

#[global] Instance TFile_eq_dec : EqDecision TFile.
Proof. solve_decision. Defined.

(** JavaScript truthiness of a string: only the empty string is falsy. *)
Definition truthy (s : string) : bool :=
  match s with
  | EmptyString => false
  | String _ _ => true
  end.

(** What one run of the callback does to the outside, in program order. *)
Inductive effect : Type :=
| ConsoleDebug (msg : string)          (* console.debug(msg) *)
| ProcessFile (file : TFile).          (* this.taskHandler.processFile(file), not awaited *)

(** [private lastFile: TFile | undefined] *)
Record plugin : Type := mkPlugin { lastFile : option TFile }.

(** State of a freshly constructed plugin: [lastFile] is [undefined]. *)
Definition initial : plugin := {| lastFile := None |}.

(** The callback registered on ['file-open'].  Its argument is a [TFile] or
    [null].  The callback is synchronous: it returns the new plugin state
    and the effects it performed, in order. *)
Definition onFileOpen (this : plugin) (file : option TFile)
  : plugin * list effect :=
  match file with
  | None => (this, [])
  | Some f =>
      if negb (truthy (basename f)) then (this, [])
      else
        let dbg := [ConsoleDebug ("Slated: File opened: " +:+ basename f)] in
        let prev :=
          match lastFile this with
          | Some last => [ProcessFile last]
          | None => []
          end in
        ({| lastFile := Some f |}, dbg ++ prev ++ [ProcessFile f])
  end.

(** The notes whose scan a list of effects starts, in order. *)
Fixpoint scans (es : list effect) : list TFile :=
  match es with
  | [] => []
  | ProcessFile f :: es' => f :: scans es'
  | ConsoleDebug _ :: es' => scans es'
  end.

(** Two notes used as examples. *)
Definition monday : TFile := {| path := "2021-01-04.md"; basename := "2021-01-04" |}.
Definition tuesday : TFile := {| path := "2021-01-05.md"; basename := "2021-01-05" |}.

End Controller.

(* ===================================================================== *)
(** ** The settings object shared by the plugin, the engine and the tab  *)
(* ===================================================================== *)

Module Plugin.
Import Settings.

(** Objects live in a heap; a field such as [this.settings] holds the
    address of an object, so that two fields can hold the same object. *)
Record state : Type := mkState {
  heap : gmap N (gmap string value);
  this_settings : N;            (* SlatedPlugin.settings *)
  taskHandler_settings : N;     (* the object given to [new TaskHandler(vault, settings)] *)
  data : option (gmap string value)   (* what saveData last stored *)
}.

(** The [defaultSettings] object that [main.ts] imports from
    ['./settings']. *)
Definition defaultSettings_loc : N := 0%N.

(** [Object.assign(target, source)]: copies the own properties of [source]
    into the object [target], in place; a [null] source copies nothing. *)
Definition Object_assign (target : N) (source : option (gmap string value))
    (h : gmap N (gmap string value)) : gmap N (gmap string value) :=
  match h !! target, source with
  | Some t, Some s => <[target := s ∪ t]> h
  | _, _ => h
  end.

(** [loadSettings] followed by the construction of the task handler, the
    first lines of [onload].  The module ['./settings'] that [main.ts]
    imports [defaultSettings] and [SettingsInstance] from is not embedded:
    [defaults] is the content of the imported [defaultSettings] object,
    and [SettingsInstance] is the constructor of the class of that name,
    which receives the assigned options and yields the properties of the
    new object.  [saved] is what [loadData] resolves to. *)
Definition onload (defaults : gmap string value)
    (SettingsInstance : gmap string value → gmap string value)
    (saved : option (gmap string value)) : state :=
  let h0 : gmap N (gmap string value) := {[ defaultSettings_loc := defaults ]} in
  let h1 := Object_assign defaultSettings_loc saved h0 in
  let settingsOptions : gmap string value := default ∅ (h1 !! defaultSettings_loc) in
  let settings_loc : N := 1%N in
  let h2 := <[settings_loc := SettingsInstance settingsOptions]> h1 in
  {| heap := h2;
     this_settings := settings_loc;
     taskHandler_settings := settings_loc;
     data := saved |}.

(** The three controls of [SettingsTab.display] and the value their
    [onChange] callback receives. *)
Inductive change : Type :=
| BlankLineAfterHeader (v : bool)
| TasksHeader (v : string)
| AliasLinks (v : bool).

Definition property (c : change) : string :=
  match c with
  | BlankLineAfterHeader _ => "blankLineAfterHeader"
  | TasksHeader _ => "tasksHeader"
  | AliasLinks _ => "aliasLinks"
  end.

Definition new_value (c : change) : value :=
  match c with
  | BlankLineAfterHeader v => VBool v
  | TasksHeader v => VString v
  | AliasLinks v => VBool v
  end.

(** An [onChange] callback:
    [this.plugin.settings.<property> = value;
     this.plugin.saveData(this.plugin.settings);] *)
Definition onChange (c : change) (st : state) : state :=
  match heap st !! this_settings st with
  | Some s =>
      let s' := <[property c := new_value c]> s in
      {| heap := <[this_settings st := s']> (heap st);
         this_settings := this_settings st;
         taskHandler_settings := taskHandler_settings st;
         data := Some s' |}
  | None => st
  end.

(** The current properties of the object that the task handler was
    constructed with. *)
Definition engineSettings (st : state) : option (gmap string value) :=
  heap st !! taskHandler_settings st.

(** The plugin after a series of changes made in the settings tab. *)
Definition after (defaults : gmap string value)
    (SettingsInstance : gmap string value → gmap string value)
    (saved : option (gmap string value)) (cs : list change) : state :=
  fold_left (fun st c => onChange c st) cs (onload defaults SettingsInstance saved).

End Plugin.

(* ===================================================================== *)
(** ** The preview post-processor [renderMovedTasks]                     *)
(* ===================================================================== *)

Module Dom.

Open Scope N_scope.

(** *** JavaScript strings

    A string is a sequence of UTF-16 code units; [slice], [trimLeft] and
    [startsWith] count and compare code units. *)

(** The code units of an ASCII literal. *)
Definition lit (s : string) : list N :=
  List.map N_of_ascii (list_ascii_of_string s).

(** White space and line terminators of ECMAScript, the characters that
    [trimLeft] removes. *)
Definition isWhiteSpace (c : N) : bool :=
  existsb (N.eqb c)
    [9; 10; 11; 12; 13; 32; 160; 5760; 8232; 8233; 8239; 8287; 12288; 65279]
  || ((8192 <=? c) && (c <=? 8202)).

(** [s.trimLeft()] *)
Fixpoint trimLeft (s : list N) : list N :=
  match s with
  | [] => []
  | c :: s' => if isWhiteSpace c then trimLeft s' else s
  end.

(** [s.startsWith(p)] *)
Fixpoint startsWith (s p : list N) {struct p} : bool :=
  match p, s with
  | [], _ => true
  | _ :: _, [] => false
  | a :: p', c :: s' => (c =? a) && startsWith s' p'
  end.

(** [s.slice(n)] for a non-negative [n]: the string without its first [n]
    code units, empty when it has no more than [n]. *)
Definition slice (n : nat) (s : list N) : list N := skipn n s.

(** *** Nodes

    Text nodes, comments and elements.  The first argument of [Element] is
    the identity of the element object: the array built from
    [getElementsByTagName] holds the objects themselves, and the loop body
    changes them in place. *)
Inductive node : Type :=
| Text (data : list N)
| Comment (data : list N)
| Element (ref : N) (tagName : string) (classList : list string)
          (childNodes : list node).

Definition nodeType (n : node) : N :=
  match n with
  | Element _ _ _ _ => 1
  | Text _ => 3
  | Comment _ => 8
  end.

Definition ref (n : node) : N :=
  match n with
  | Element r _ _ _ => r
  | _ => 0
  end.

Definition tagName (n : node) : string :=
  match n with
  | Element _ t _ _ => t
  | _ => ""
  end.

Definition classList (n : node) : list string :=
  match n with
  | Element _ _ c _ => c
  | _ => []
  end.

Definition childNodes (n : node) : list node :=
  match n with
  | Element _ _ _ k => k
  | _ => []
  end.

(** [node.textContent] (getter): the data of a text node or comment; for an
    element the concatenation of the text content of its children, comments
    left out. *)
Fixpoint textContent (n : node) : list N :=
  match n with
  | Text d => d
  | Comment d => d
  | Element _ _ _ kids =>
      concat (List.map (fun k => match k with
                                 | Comment _ => []
                                 | _ => textContent k
                                 end) kids)
  end.

(** [node.textContent = s] (setter). *)
Definition setTextContent (n : node) (s : list N) : node :=
  match n with
  | Text _ => Text s
  | Comment _ => Comment s
  | Element r t c _ => Element r t c (match s with [] => [] | _ => [Text s] end)
  end.

(** Obsidian's [getText()] returns [textContent]. *)
Definition getText (n : node) : list N := textContent n.

(** Obsidian's [hasClass(cls)] is [classList.contains(cls)]. *)
Definition hasClass (cls : string) (n : node) : bool :=
  existsb (String.eqb cls) (classList n).

(** [classList.add(cls)] on a class list: no duplicate is added. *)
Definition addClass (cls : string) (l : list string) : list string :=
  if existsb (String.eqb cls) l then l else l ++ [cls].

(** The element [n], if it is one, followed by the elements below it, in
    document order. *)
Fixpoint elements (n : node) : list node :=
  match n with
  | Element _ _ _ kids => n :: concat (List.map elements kids)
  | _ => []
  end.

(** [el.getElementsByTagName(tag)]: the descendants of [el] with that tag
    name, in document order; [el] itself is not among them.
    [Object.values] turns the collection into an array of these objects. *)
Definition getElementsByTagName (tag : string) (el : node) : list node :=
  List.filter (fun e => String.eqb (tagName e) tag)
    (concat (List.map elements (childNodes el))).

(** The current state of the element object [r] inside [doc]. *)
Fixpoint lookupRef (r : N) (doc : node) : option node :=
  match doc with
  | Element r' _ _ kids =>
      if r' =? r then Some doc
      else (fix go (ks : list node) : option node :=
              match ks with
              | [] => None
              | k :: ks' =>
                  match lookupRef r k with
                  | Some x => Some x
                  | None => go ks'
                  end
              end) kids
  | _ => None
  end.

(** The same search through a list of siblings. *)
Fixpoint lookupRefs (r : N) (ks : list node) : option node :=
  match ks with
  | [] => None
  | k :: ks' =>
      match lookupRef r k with
      | Some x => Some x
      | None => lookupRefs r ks'
      end
  end.

(** A change [f] made to the element object [r], seen from [doc]. *)
Fixpoint updateRef (r : N) (f : node → node) (doc : node) : node :=
  match doc with
  | Element r' t c kids =>
      if r' =? r then f doc
      else Element r' t c (List.map (updateRef r f) kids)
  | _ => doc
  end.

(** [Element(movedIconSvg)]: the document element of the icon's markup
    parsed as XML, a new [svg] element each time.  Its elements take the
    identities [next .. next + 3]; the white space between the tags of the
    markup becomes text nodes. *)
Definition movedIcon (next : N) : node :=
  Element next "svg" ["slated-moved-icon"]
    [ Text [10; 32; 32];
      Element (next + 1) "g" []
        [ Text [10; 32; 32; 32; 32];
          Element (next + 2) "path" [] [];
          Text [10; 32; 32; 32; 32];
          Element (next + 3) "path" [] [];
          Text [10; 32; 32] ];
      Text [10] ].

(** The [for] loop of the callback: the first child that is a text node
    loses its first four code units, the children before it are skipped
    ([continue]) and those after it are not visited ([break]). *)
Fixpoint sliceFirstText (children : list node) : list node :=
  match children with
  | [] => []
  | child :: rest =>
      if negb (nodeType child =? 3) then child :: sliceFirstText rest
      else setTextContent child (slice 4 (textContent child)) :: rest
  end.

(** The body of the [forEach] callback on the state of one list item:
    the loop, [addClass('task-list-item')] and
    [insertBefore(icon, listItem.firstChild)]. *)
Definition processItem (icon : node) (listItem : node) : node :=
  match listItem with
  | Element r t c kids =>
      Element r t (addClass "task-list-item" c) (icon :: sliceFirstText kids)
  | _ => listItem
  end.

(** The [filter] predicate. *)
Definition isMoved (listItem : node) : bool :=
  negb (hasClass "task-list-item" listItem)
  && startsWith (trimLeft (getText listItem)) (lit "[>]").

(** One call of the [forEach] callback.  The state is the rendered section
    and the next unused object identity. *)
Definition forEachBody (st : node * N) (listItem : node) : node * N :=
  (updateRef (ref listItem) (processItem (movedIcon (snd st))) (fst st),
   snd st + 4).

(** [renderMovedTasks(el, ctx)]: the array of list items is built and
    filtered before any item is changed; then the callback runs on the
    selected items in document order. *)
Definition renderMovedTasks (st : node * N) : node * N :=
  let el := fst st in
  let items := getElementsByTagName "li" el in
  let selected := List.filter isMoved items in
  fold_left forEachBody selected st.

(** Every element object of the section has its own identity, and the
    identities not yet used start at [next]. *)
Definition refs (n : node) : list N := List.map ref (elements n).

Definition wf (st : node * N) : Prop :=
  List.NoDup (refs (fst st)) ∧ Forall (fun r => r < snd st) (refs (fst st)).

(** What an element object holds itself: its text and comment children by
    value, its element children by identity and tag. *)
Inductive childView : Type :=
| VText (data : list N)
| VComment (data : list N)
| VElement (r : N) (tag : string).

Definition view (n : node) : childView :=
  match n with
  | Text d => VText d
  | Comment d => VComment d
  | Element r t _ _ => VElement r t
  end.

(** *** The state of the section once the loop is over

    [applyAll m n] is [n] in which every element whose identity is a key
    of [m] has received the callback's changes, with the icon that [m]
    gives it; [assign] lists the icon each selected item receives. *)
Fixpoint applyAll (m : gmap N node) (n : node) : node :=
  match n with
  | Element r t c kids =>
      let n' := Element r t c (List.map (applyAll m) kids) in
      match m !! r with
      | Some icon => processItem icon n'
      | None => n'
      end
  | _ => n
  end.

Definition assign (selected : list node) (next : N) : gmap N node * N :=
  fold_left
    (fun a listItem => (<[ref listItem := movedIcon (snd a)]> (fst a), snd a + 4))
    selected (∅, next).

(** *** An example section

    A list with a moved task, a plain item, a task already rendered as a
    task-list item, and an item with a nested moved task. *)
Definition movedItem : node :=
  Element 2 "li" []
    [ Text (lit "[>] ");
      Element 3 "a" ["internal-link"] [Text (lit "2021-01-05")] ].

Definition exampleSection : node :=
  Element 1 "ul" []
    [ movedItem;
      Element 4 "li" [] [Text (lit "plain")];
      Element 5 "li" ["task-list-item"] [Text (lit "[>] kept")];
      Element 6 "li" []
        [ Text (lit "outer");
          Element 7 "ul" []
            [ Element 8 "li" [] [Text (lit "  [>] inner")] ] ] ].

End Dom.

(* ===================================================================== *)
(** ** The repeat rule evaluator                                          *)
(* ===================================================================== *)

Module Repeat.

Open Scope Z_scope.

(** A calendar date of the proleptic Gregorian calendar. *)
Record date : Type := mkDate { year : Z; month : Z; day : Z }.

Definition isLeap (y : Z) : bool :=
  ((y mod 4 =? 0) && negb (y mod 100 =? 0)) || (y mod 400 =? 0).

Definition daysInMonth (y m : Z) : Z :=
  if m =? 2 then (if isLeap y then 29 else 28)
  else if (m =? 4) || (m =? 6) || (m =? 9) || (m =? 11) then 30
  else 31.

Definition validDate (d : date) : Prop :=
  1 <= month d <= 12 ∧ 1 <= day d <= daysInMonth (year d) (month d).

(** [a] is strictly before [b]. *)
Definition before (a b : date) : Prop :=
  year a < year b
  ∨ (year a = year b
     ∧ (month a < month b ∨ (month a = month b ∧ day a < day b))).

Definition nextDay (d : date) : date :=
  if day d <? daysInMonth (year d) (month d)
  then {| year := year d; month := month d; day := day d + 1 |}
  else if month d <? 12
       then {| year := year d; month := month d + 1; day := 1 |}
       else {| year := year d + 1; month := 1; day := 1 |}.

(** [d] plus [n] days. *)
Definition addDays (n : Z) (d : date) : date :=
  Nat.iter (Z.to_nat n) nextDay d.

(** Days since 1970-01-01, and the day of the week, 0 for Sunday. *)
Definition dayNumber (d : date) : Z :=
  let y := if month d <=? 2 then year d - 1 else year d in
  let mp := (month d + 9) mod 12 in
  365 * y + y / 4 - y / 100 + y / 400 + (153 * mp + 2) / 5 + day d - 719469.

Definition weekday (d : date) : Z := (dayNumber d + 4) mod 7.

(** A repeat rule: interval unit, count, optional explicit weekday set. *)
Inductive unit : Type := Day | Week | Month.

Record RepeatRule : Type := mkRule {
  interval : unit;
  count : Z;
  weekdays : option (list Z)
}.

(** A valid rule repeats after at least one unit, and an explicit weekday
    set is a non-empty set of days of the week. *)
Definition validRule (r : RepeatRule) : Prop :=
  1 <= count r
  ∧ match weekdays r with
    | Some ws => ws ≠ [] ∧ Forall (fun w => 0 <= w < 7) ws
    | None => True
    end.

Definition onWeekday (ws : list Z) (d : date) : bool :=
  existsb (Z.eqb (weekday d)) ws.

(** The earliest of the [fuel] days after [d] that falls on one of the
    weekdays [ws]. *)
Fixpoint firstMatching (ws : list Z) (d : date) (fuel : nat) : option date :=
  match fuel with
  | O => None
  | S fuel' =>
      let d' := nextDay d in
      if onWeekday ws d' then Some d' else firstMatching ws d' fuel'
  end.

(** The same day of the month [n] months later, clamped to the last day
    of the target month. *)
Definition addMonths (n : Z) (d : date) : date :=
  let t := year d * 12 + (month d - 1) + n in
  let y := t / 12 in
  let m := t mod 12 + 1 in
  {| year := y; month := m; day := Z.min (day d) (daysInMonth y m) |}.

(** Modelled from the spec: the evaluator is part of the task modules,
    which are not embedded here; this is section 4.2 of the specification.
    A day rule of count [n] adds [n] days; a week rule with an explicit
    weekday set yields the earliest later date on one of these weekdays,
    and without one adds [7 * n] days; a month rule yields the same day of
    the month [n] months later, clamped.  [None] is a failure. *)
Definition nextOccurrence (rule : RepeatRule) (fromDate : date) : option date :=
  match interval rule with
  | Day => Some (addDays (count rule) fromDate)
  | Week =>
      match weekdays rule with
      | Some ws => firstMatching ws fromDate 7
      | None => Some (addDays (7 * count rule) fromDate)
      end
  | Month => Some (addMonths (count rule) fromDate)
  end.

End Repeat.

(* ===================================================================== *)
(** ** The relocation of a task from one note to another                 *)
(* ===================================================================== *)

Module Relocation.
Import Repeat.

(** Notes are identified by their title; the note store maps a note to its
    lines, and a note that was never written has no line. *)
Definition readLines (note : string) (store : gmap string (list string))
  : list string :=
  default [] (store !! note).

Definition writeLines (note : string) (lines : list string)
    (store : gmap string (list string)) : gmap string (list string) :=
  <[note := lines]> store.

(** The configuration snapshot of section 6. *)
Record config : Type := mkConfig {
  tasksHeader : string;
  blankLineAfterHeader : bool;
  preserveMovedTasks : bool;
  aliasLinks : bool
}.

(** The new line goes right after the header and its blank line; a blank
    line is added first when asked for and missing. *)
Fixpoint insertAfterHeader (header newLine : string) (ensureBlank : bool)
    (lines : list string) : list string :=
  match lines with
  | [] => []
  | l :: rest =>
      if String.eqb l header then
        match rest with
        | "" :: rest' => l :: "" :: newLine :: rest'
        | _ => if ensureBlank then l :: "" :: newLine :: rest
               else l :: newLine :: rest
        end
      else l :: insertAfterHeader header newLine ensureBlank rest
  end.

(** Modelled from the spec: [insertUnderHeader] of section 4.3, an
    operation of the note store adapter, which is not embedded here.  An
    existing header line receives the new line below it; otherwise the
    header is appended, separated by a blank line from existing content,
    and then the new line, with the same blank-line rule. *)
Definition insertUnderHeader (note header newLine : string) (ensureBlank : bool)
    (store : gmap string (list string)) : gmap string (list string) :=
  let lines := readLines note store in
  let lines' :=
    if existsb (fun l => String.eqb l header) lines
    then insertAfterHeader header newLine ensureBlank lines
    else lines ++ (match lines with [] => [] | _ => [""] end)
               ++ [header] ++ (if ensureBlank then [""] else []) ++ [newLine] in
  writeLines note lines' store.

(** A relocation to carry out: where the task was parsed, the text of its
    line at that time, the destination date, and the two lines that the
    serializer produced for it: the new task line and the moved stub. *)
Record request : Type := mkRequest {
  origin : string;
  index : nat;
  parsedLine : string;
  destination : date;
  newLine : string;
  stub : string
}.

Inductive outcome : Type :=
| Committed
| DestinationUnavailable
| ConcurrentModificationConflict.

(** The origin's target line still has the text that was parsed. *)
Definition lineMatches (req : request) (store : gmap string (list string)) : bool :=
  match readLines (origin req) store !! index req with
  | Some l => String.eqb l (parsedLine req)
  | None => false
  end.

(** Step 4: the origin line becomes the stub, or is deleted. *)
Definition rewriteSource (cfg : config) (req : request) (lines : list string)
  : list string :=
  if preserveMovedTasks cfg then <[index req := stub req]> lines
  else delete (index req) lines.

(** Modelled from the spec: the relocation engine of section 4.4, part of
    the task modules, which are not embedded here.  [store] is the note
    store when the relocation writes, and [parsedLine] what was read when
    the task was parsed.  The engine plans before it applies: it resolves
    the destination and re-reads the origin, and aborts without any write
    when the destination cannot be resolved or when the origin line no
    longer has the text that was parsed (sections 4.4 and 7: no mutation
    performed).  Then it writes the destination (step 3), before it
    rewrites the source line (step 4), and persists the origin only if its
    content changed (step 5). *)
Definition relocate (cfg : config) (resolveNote : date → option string)
    (req : request) (store : gmap string (list string))
  : outcome * gmap string (list string) :=
  match resolveNote (destination req) with
  | None => (DestinationUnavailable, store)
  | Some dest =>
      if negb (lineMatches req store)
      then (ConcurrentModificationConflict, store)
      else
        let store1 :=
          insertUnderHeader dest (tasksHeader cfg) (newLine req)
            (blankLineAfterHeader cfg) store in
        let lines := readLines (origin req) store1 in
        let lines' := rewriteSource cfg req lines in
        (Committed,
         if decide (lines' = lines) then store1
         else writeLines (origin req) lines' store1)
  end.

(** *** An example: a daily task found done on Monday's note *)


Definition exampleStore : gmap string (list string) :=
  {[ "2021-01-04" := ["## Tasks"; ""; "- [x] Water the plants"] ]}.




End Relocation.

(* ===================================================================== *)
(** ** A series of focus changes                                         *)
(* ===================================================================== *)

Module Focus.
Import Controller.

(** The guard of the handler, [!file || !file.basename], negated. *)
Definition isValid (file : option TFile) : bool :=
  match file with
  | Some f => truthy (basename f)
  | None => false
  end.

(** The handler run on one notification after the other; the effects of
    the runs, in order. *)
Fixpoint notifyAll (this : plugin) (files : list (option TFile))
  : plugin * list effect :=
  match files with
  | [] => (this, [])
  | file :: files' =>
      let r := onFileOpen this file in
      let r' := notifyAll (fst r) files' in
      (fst r', snd r ++ snd r')
  end.

End Focus.

(* ===================================================================== *)
(** ** The commands "Move Task" and "Configure Task Repetition"          *)
(* ===================================================================== *)

Module Commands.
Import Controller.

(** A call returns a value or throws (a [TypeError], when a property of
    [undefined] or [null] is read). *)
Inductive result (A : Type) : Type :=
| Return (a : A)
| Throw.
Arguments Return {A} a.
Arguments Throw {A}.

(** The part of the CodeMirror editor that is used: [getCursor()], a
    position [(line, ch)], and [getLine(n)]. *)
Record Editor : Type := mkEditor {
  getCursor : nat * nat;
  getLine : nat → string
}.

(** The view of a leaf: a [MarkdownView], with its file and the editor of
    its source mode, or a view of another class. *)
Inductive View : Type :=
| MarkdownView (file : TFile) (cmEditor : Editor)
| OtherView.

(** What [this.app.workspace.activeLeaf] holds. *)
Inductive ActiveLeaf : Type :=
| LeafUndefined
| LeafNull
| WorkspaceLeaf (view : View).

(** [view instanceof MarkdownView] *)
Definition instanceofMarkdownView (v : View) : bool :=
  match v with
  | MarkdownView _ _ => true
  | OtherView => false
  end.

(** The arguments of [new TaskLine(line, lineNum, file, vault, settings)];
    the last two are the plugin's own [vault] and [settings] objects. *)
Record TaskLine : Type := mkTaskLine {
  line : string;
  lineNum : nat;
  file : TFile;
  vault : N;
  settings : N
}.

(** The fields of the plugin that the commands read. *)
Record plugin : Type := mkPlugin { this_vault : N; this_settings : N }.

Inductive modal : Type := TaskMoveModal | TaskRepeatModal.

(** [new TaskMoveModal(this.app, task).open()] and its sibling. *)
Inductive effect : Type :=
| Open (m : modal) (task : TaskLine).

(** The task line under the cursor of a markdown view. *)
Definition taskAtCursor (this : plugin) (v : View) : result TaskLine :=
  match v with
  | MarkdownView f editor =>
      let cursorPos := getCursor editor in
      let currentLine := getLine editor (fst cursorPos) in
      Return {| line := currentLine; lineNum := fst cursorPos; file := f;
                vault := this_vault this; settings := this_settings this |}
  | OtherView => Throw             (* view.sourceMode is undefined *)
  end.

Section WithTaskLine.

(** [TaskLine.isTask()], of the class [TaskLine], which is not embedded. *)
Variable isTask : TaskLine → bool.

(** [taskModalChecker]: the result is a boolean, or [undefined] ([None])
    where the source has a bare [return]. *)
Definition taskModalChecker (this : plugin) (activeLeaf : ActiveLeaf)
  : result (option bool) :=
  match activeLeaf with
  | LeafUndefined => Return (Some false)
  | LeafNull => Throw
  | WorkspaceLeaf view =>
      if negb (instanceofMarkdownView view) then Return (Some false)
      else if negb (instanceofMarkdownView view) then Return None
      else
        match taskAtCursor this view with
        | Return task => Return (Some (isTask task))
        | Throw => Throw
        end
  end.

(** [taskModalOpener(fn)]: the effects of [fn] when it is called. *)
Definition taskModalOpener (this : plugin) (activeLeaf : ActiveLeaf)
    (fn : TaskLine → list effect) : result (list effect) :=
  match activeLeaf with
  | LeafUndefined => Throw
  | LeafNull => Throw
  | WorkspaceLeaf view =>
      if negb (instanceofMarkdownView view) then Return []
      else
        match taskAtCursor this view with
        | Return task => Return (fn task)
        | Throw => Throw
        end
  end.

(** The [checkCallback] of a command: the value returned and the effects. *)
Definition checkCallback (m : modal) (this : plugin) (activeLeaf : ActiveLeaf)
    (checking : bool) : result (option bool * list effect) :=
  if checking then
    match taskModalChecker this activeLeaf with
    | Return b => Return (b, [])
    | Throw => Throw
    end
  else
    match taskModalOpener this activeLeaf (fun task => [Open m task]) with
    | Return es => Return (None, es)
    | Throw => Throw
    end.

End WithTaskLine.

(** *** An example: the cursor on the third line of Monday's note *)

Definition exampleEditor : Editor :=
  {| getCursor := (2%nat, 0%nat);
     getLine := fun n => nth n ["## Tasks"; ""; "- [ ] Water the plants"] "" |}.

Definition exampleLeaf : ActiveLeaf :=
  WorkspaceLeaf (MarkdownView monday exampleEditor).

(** A stand-in for [isTask]: the line starts with a list marker and a box. *)
Definition exampleIsTask (t : TaskLine) : bool :=
  String.prefix "- [" (line t).

End Commands.

(* ===================================================================== *)
(** ** The controls of the settings tab                                  *)
(* ===================================================================== *)

Module SettingsTab.
Import Settings Plugin.

(** A control and the value given to its [setValue]; [None] stands for
    [undefined], the value of a property that the object does not have. *)
Inductive control : Type :=
| Toggle (value : option value)
| TextInput (value : option value).

Record setting : Type := mkSetting {
  name : string;
  desc : string;
  ctl : control
}.

(** The double quote character. *)
Definition quote : string := String (ascii_of_nat 34) EmptyString.

(** The three [new Setting(containerEl)] of [SettingsTab.display], in
    order, for the current settings object. *)
Definition settingsOf (s : gmap string value) : list setting :=
  [ {| name := "Empty line after headings";
       desc := "When creating headings or adding tasks, leave an empty line below any headings.";
       ctl := Toggle (s !! "blankLineAfterHeader") |};
    {| name := "Tasks section header";
       desc := "Markdown header to use when creating tasks section in a document";
       ctl := TextInput (s !! "tasksHeader") |};
    {| name := "Alias backlinks to original tasks";
       desc := "When a task is moved or repeats, use the " +:+ quote +:+ "Origin"
               +:+ quote +:+ " alias in the backlink";
       ctl := Toggle (s !! "aliasLinks") |} ].

(** [display()]: the settings shown, read from [this.plugin.settings]. *)
Definition display (st : state) : option (list setting) :=
  settingsOf <$> (heap st !! this_settings st).

(** The position of the control that a change comes from. *)
Definition controlIndex (c : change) : nat :=
  match c with
  | BlankLineAfterHeader _ => 0
  | TasksHeader _ => 1
  | AliasLinks _ => 2
  end.

(** The value a control shows. *)
Definition shown (x : setting) : option value :=
  match ctl x with
  | Toggle v => v
  | TextInput v => v
  end.

End SettingsTab.

(* ===================================================================== *)
(** ** Facts about the settings                                           *)
(* ===================================================================== *)

Module SettingsFacts.
Import Settings.

Lemma settingsWithDefaults_lookup (s : gmap string value) k :
  settingsWithDefaults s !! k
  = match s !! k with Some v => Some v | None => defaultSettings !! k end.
Proof.
  unfold settingsWithDefaults, spread. rewrite lookup_union.
  destruct (s !! k), (defaultSettings !! k); reflexivity.
Qed.

Lemma defaultSettings_declared : map_Forall declared defaultSettings.
Proof.
  apply (bool_decide_unpack (map_Forall declared defaultSettings)).
  vm_compute. exact I.
Qed.

Lemma defaultSettings_present :
  Forall (fun p => is_Some (defaultSettings !! fst p)) ISettings.
Proof. repeat constructor; simpl; eexists; reflexivity. Qed.

Lemma well_typed_declared k v : well_typed k v → v ≠ VUndefined → declared k v.
Proof.
  unfold well_typed, declared. destruct (field_type k); [|tauto].
  intros [->|H] Hv; [congruence|exact H].
Qed.

Lemma declared_defined k v : declared k v → v ≠ VUndefined.
Proof.
  unfold declared. destruct (field_type k) as [t|]; [|tauto].
  intros H ->. destruct t; discriminate H.
Qed.

(** C8, as stated, fails: a partial settings object may have a property
    present with the value [undefined]; the spread copies it over the
    default, and the result is not a complete settings value. *)
Lemma settingsWithDefaults_undefined :
  isPartial {[ "tasksHeader" := VUndefined ]}
  ∧ settingsWithDefaults {[ "tasksHeader" := VUndefined ]} !! "tasksHeader"
    = Some VUndefined
  ∧ ¬ isComplete (settingsWithDefaults {[ "tasksHeader" := VUndefined ]}).
Proof.
  split; [|split].
  - apply (bool_decide_unpack
             (map_Forall well_typed {[ "tasksHeader" := VUndefined ]})).
    vm_compute. exact I.
  - reflexivity.
  - intros [H _]. specialize (H "tasksHeader" VUndefined eq_refl).
    exact (declared_defined _ _ H eq_refl).
Qed.

(** C8, amended.  [settingsWithDefaults s] looks every property up in [s]
    first and in the defaults otherwise, so that a property present in [s]
    keeps its value, [undefined] included; the defaults are the five
    documented values; the result has every declared property; for a
    partial [s] it is a complete settings value exactly when no property
    of [s] is present with the value [undefined]; applying the function
    twice is the same as applying it once. *)
Theorem settingsWithDefaults_spec (s : gmap string value) :
  (∀ k, settingsWithDefaults s !! k
        = match s !! k with Some v => Some v | None => defaultSettings !! k end)
  ∧ defaultSettings
    = list_to_map [ ("tasksHeader", VString "## Tasks");
                    ("blankLineAfterHeader", VBool true);
                    ("preserveMovedTasks", VBool false);
                    ("localeOverride", VString "system-default");
                    ("weekStart", VString "locale") ]
  ∧ Forall (fun p => is_Some (settingsWithDefaults s !! fst p)) ISettings
  ∧ (isPartial s → (isComplete (settingsWithDefaults s) ↔ noUndefined s))
  ∧ settingsWithDefaults (settingsWithDefaults s) = settingsWithDefaults s.
Proof.
  split; [apply settingsWithDefaults_lookup|].
  split; [apply map_eq; intros k; vm_compute; reflexivity|].
  assert (Hall : Forall (fun p => is_Some (settingsWithDefaults s !! fst p)) ISettings).
  { eapply List.Forall_impl; [|apply defaultSettings_present].
    intros [k t] [v Hv]. simpl in *. rewrite settingsWithDefaults_lookup, Hv.
    destruct (s !! k); eauto. }
  split; [exact Hall|]. split.
  - intros Hs. split.
    + intros [Hd _] k v E. apply (declared_defined k). apply Hd.
      rewrite settingsWithDefaults_lookup, E. reflexivity.
    + intros Hu. split; [|exact Hall].
      intros k v. rewrite settingsWithDefaults_lookup.
      destruct (s !! k) as [w|] eqn:E.
      * intros [= <-]. apply well_typed_declared; [exact (Hs k w E)|exact (Hu k w E)].
      * apply defaultSettings_declared.
  - apply map_eq. intros k. rewrite !settingsWithDefaults_lookup.
    destruct (s !! k); [reflexivity|]. destruct (defaultSettings !! k); reflexivity.
Qed.

Lemma settingsWithDefaults_spec_witness :
  isPartial {[ "tasksHeader" := VString "# To do" ]}
  ∧ noUndefined {[ "tasksHeader" := VString "# To do" ]}
  ∧ isComplete (settingsWithDefaults {[ "tasksHeader" := VString "# To do" ]})
  ∧ settingsWithDefaults {[ "tasksHeader" := VString "# To do" ]} !! "tasksHeader"
    = Some (VString "# To do")
  ∧ settingsWithDefaults {[ "tasksHeader" := VString "# To do" ]} !! "weekStart"
    = Some (VString "locale").
Proof.
  assert (Hp : isPartial {[ "tasksHeader" := VString "# To do" ]}).
  { apply (bool_decide_unpack
             (map_Forall well_typed {[ "tasksHeader" := VString "# To do" ]})).
    vm_compute. exact I. }
  assert (Hu : noUndefined {[ "tasksHeader" := VString "# To do" ]}).
  { intros k v H. apply lookup_singleton_Some in H. destruct H as [_ <-].
    discriminate. }
  destruct (settingsWithDefaults_spec {[ "tasksHeader" := VString "# To do" ]})
    as (Hl & _ & _ & Hc & _).
  split; [exact Hp|]. split; [exact Hu|]. split; [exact (proj2 (Hc Hp) Hu)|].
  split; rewrite Hl; reflexivity.
Defined.

End SettingsFacts.

(* ===================================================================== *)
(** ** Facts about the [file-open] handler                               *)
(* ===================================================================== *)

Module ControllerFacts.
Import Controller.

Lemma truthy_nonempty s : s ≠ "" → truthy s = true.
Proof. destruct s; [congruence|reflexivity]. Qed.

Lemma onFileOpen_valid (this : plugin) (f : TFile) :
  basename f ≠ "" →
  onFileOpen this (Some f)
  = ({| lastFile := Some f |},
     ConsoleDebug ("Slated: File opened: " +:+ basename f)
     :: match lastFile this with
        | Some last => [ProcessFile last; ProcessFile f]
        | None => [ProcessFile f]
        end).
Proof.
  intros Hf. unfold onFileOpen. rewrite (truthy_nonempty _ Hf). simpl.
  destruct (lastFile this); reflexivity.
Qed.

(** C2.  A notification with a valid note makes the handler start the scan
    of the note focused before, when there is one, and then the scan of the
    new note, in this order, and remember the new note. *)
Theorem onFileOpen_scans_previous_then_new (this : plugin) (f : TFile) :
  basename f ≠ "" →
  snd (onFileOpen this (Some f))
  = ConsoleDebug ("Slated: File opened: " +:+ basename f)
    :: match lastFile this with
       | Some last => [ProcessFile last; ProcessFile f]
       | None => [ProcessFile f]
       end
  ∧ scans (snd (onFileOpen this (Some f)))
    = match lastFile this with
      | Some last => [last; f]
      | None => [f]
      end
  ∧ lastFile (fst (onFileOpen this (Some f))) = Some f.
Proof.
  intros Hf. rewrite (onFileOpen_valid this f Hf). simpl.
  destruct (lastFile this); auto.
Qed.

Lemma onFileOpen_scans_previous_then_new_witness :
  basename tuesday ≠ ""
  ∧ scans (snd (onFileOpen {| lastFile := Some monday |} (Some tuesday)))
    = [monday; tuesday]
  ∧ lastFile (fst (onFileOpen {| lastFile := Some monday |} (Some tuesday)))
    = Some tuesday.
Proof.
  assert (H : basename tuesday ≠ "") by (simpl; discriminate).
  split; [exact H|].
  exact (proj2 (onFileOpen_scans_previous_then_new {| lastFile := Some monday |} tuesday H)).
Defined.

(** C9.  A notification without a file, or with a file whose basename is
    empty, changes nothing and starts no scan; the first valid
    notification, when no note is remembered, starts the scan of the new
    note only. *)
Theorem onFileOpen_ignored_and_first (this : plugin) (p : string) (f : TFile) :
  basename f ≠ "" →
  onFileOpen this None = (this, [])
  ∧ onFileOpen this (Some {| path := p; basename := "" |}) = (this, [])
  ∧ scans (snd (onFileOpen {| lastFile := None |} (Some f))) = [f]
  ∧ lastFile (fst (onFileOpen {| lastFile := None |} (Some f))) = Some f.
Proof.
  intros Hf. split; [reflexivity|]. split; [reflexivity|].
  unfold onFileOpen. rewrite (truthy_nonempty _ Hf). auto.
Qed.

Lemma onFileOpen_ignored_and_first_witness :
  basename monday ≠ ""
  ∧ onFileOpen {| lastFile := Some tuesday |} None = ({| lastFile := Some tuesday |}, [])
  ∧ onFileOpen {| lastFile := Some tuesday |} (Some {| path := "x.md"; basename := "" |})
    = ({| lastFile := Some tuesday |}, [])
  ∧ scans (snd (onFileOpen {| lastFile := None |} (Some monday))) = [monday]
  ∧ lastFile (fst (onFileOpen {| lastFile := None |} (Some monday))) = Some monday.
Proof.
  assert (H : basename monday ≠ "") by (simpl; discriminate).
  split; [exact H|].
  exact (onFileOpen_ignored_and_first {| lastFile := Some tuesday |} "x.md" monday H).
Defined.

End ControllerFacts.

(* ===================================================================== *)
(** ** Facts about the shared settings object                            *)
(* ===================================================================== *)

Module PluginFacts.
Import Settings Plugin.

Lemma onChange_Some c st s :
  heap st !! this_settings st = Some s →
  onChange c st
  = {| heap := <[this_settings st := <[property c := new_value c]> s]> (heap st);
       this_settings := this_settings st;
       taskHandler_settings := taskHandler_settings st;
       data := Some (<[property c := new_value c]> s) |}.
Proof. intros H. unfold onChange. rewrite H. reflexivity. Qed.

(** The task handler was constructed with the plugin's settings object,
    and that object exists. *)
Lemma after_invariant defaults ctor saved cs :
  taskHandler_settings (after defaults ctor saved cs)
  = this_settings (after defaults ctor saved cs)
  ∧ is_Some (heap (after defaults ctor saved cs)
             !! this_settings (after defaults ctor saved cs)).
Proof.
  unfold after. induction cs as [|c cs IH] using rev_ind.
  - simpl. split; [reflexivity|]. rewrite lookup_insert_eq. eauto.
  - rewrite fold_left_app. simpl.
    destruct IH as [Heq [s Hs]]. rewrite (onChange_Some c _ s Hs). simpl.
    split; [exact Heq|]. rewrite lookup_insert_eq. eauto.
Qed.

End PluginFacts.

(* ===================================================================== *)
(** ** Facts about [renderMovedTasks]                                    *)
(* ===================================================================== *)

Module DomFacts.
Import Dom.

Open Scope N_scope.

(** Induction on nodes with the hypothesis for every child. *)
Lemma node_ind' (P : node → Prop) :
  (∀ d, P (Text d)) →
  (∀ d, P (Comment d)) →
  (∀ r t c kids, Forall P kids → P (Element r t c kids)) →
  ∀ n, P n.
Proof.
  intros HT HC HE. fix IH 1. intros [d|d|r t c kids]; [apply HT|apply HC|].
  apply HE. induction kids as [|k kids IHk]; constructor; [apply IH|exact IHk].
Qed.

Lemma refs_Element r t c kids :
  refs (Element r t c kids) = r :: concat (List.map refs kids).
Proof.
  unfold refs. simpl. f_equal.
  rewrite concat_map, List.map_map. reflexivity.
Qed.

Lemma in_refs_kid r k (kids : list node) :
  In k kids → In r (refs k) → In r (concat (List.map refs kids)).
Proof.
  intros Hk Hr. apply in_concat. exists (refs k). split; auto.
  apply in_map. exact Hk.
Qed.

Lemma NoDup_concat_elem {A} (ls : list (list A)) l :
  List.NoDup (concat ls) → In l ls → List.NoDup l.
Proof.
  induction ls as [|l0 ls IH]; simpl; intros Hnd Hin; [contradiction|].
  destruct Hin as [->|Hin].
  - eapply NoDup_app_remove_r; eauto.
  - apply IH; auto. eapply NoDup_app_remove_l; eauto.
Qed.

Lemma NoDup_refs_kid r t c kids k :
  List.NoDup (refs (Element r t c kids)) → In k kids → List.NoDup (refs k).
Proof.
  rewrite refs_Element. intros Hnd Hk. inversion Hnd; subst.
  eapply NoDup_concat_elem; eauto. apply in_map. exact Hk.
Qed.

Lemma NoDup_refs_root r t c kids k :
  List.NoDup (refs (Element r t c kids)) → In k kids → ¬ In r (refs k).
Proof.
  rewrite refs_Element. intros Hnd Hk Hr. inversion Hnd; subst.
  eauto using in_refs_kid.
Qed.

(** *** The loop body commutes with changes made elsewhere *)

Lemma sliceFirstText_map (g : node → node) ks :
  (∀ d, g (Text d) = Text d) →
  (∀ n, nodeType (g n) = nodeType n) →
  List.map g (sliceFirstText ks) = sliceFirstText (List.map g ks).
Proof.
  intros Ht Hk. induction ks as [|k ks IH]; simpl; [reflexivity|].
  rewrite Hk. destruct k as [d|d|r t c kids]; simpl.
  - rewrite !Ht. reflexivity.
  - rewrite IH. reflexivity.
  - rewrite IH. reflexivity.
Qed.


Lemma nodeType_updateRef r ic n :
  nodeType (updateRef r (processItem ic) n) = nodeType n.
Proof. destruct n; simpl; try reflexivity. destruct (ref0 =? r); reflexivity. Qed.

Lemma updateRef_notin r f n : ¬ In r (refs n) → updateRef r f n = n.
Proof.
  induction n as [d|d|r0 t c kids IH] using node_ind'; intros Hr; try reflexivity.
  rewrite refs_Element in Hr. simpl.
  destruct (N.eqb_spec r0 r) as [->|Hne]; [exfalso; apply Hr; left; reflexivity|].
  f_equal. rewrite <- (List.map_id kids) at 2. apply map_ext_in.
  intros k Hk. rewrite List.Forall_forall in IH. apply IH; [exact Hk|].
  intros Hin. apply Hr. right. eauto using in_refs_kid.
Qed.

Lemma applyAll_ext m1 m2 n :
  (∀ r, In r (refs n) → m1 !! r = m2 !! r) → applyAll m1 n = applyAll m2 n.
Proof.
  induction n as [d|d|r0 t c kids IH] using node_ind'; intros Hr; try reflexivity.
  simpl. rewrite (Hr r0) by (rewrite refs_Element; left; reflexivity).
  assert (Hk : List.map (applyAll m1) kids = List.map (applyAll m2) kids).
  { apply map_ext_in. intros k Hk. rewrite List.Forall_forall in IH.
    apply IH; [exact Hk|]. intros r Hin. apply Hr. rewrite refs_Element.
    right. eauto using in_refs_kid. }
  rewrite Hk. reflexivity.
Qed.

Lemma applyAll_empty n : applyAll ∅ n = n.
Proof.
  induction n as [d|d|r0 t c kids IH] using node_ind'; try reflexivity.
  simpl. rewrite lookup_empty. f_equal.
  rewrite <- (List.map_id kids) at 2. apply map_ext_in. intros k Hk.
  rewrite List.Forall_forall in IH. apply IH. exact Hk.
Qed.

Lemma updateRef_applyAll m r ic n :
  m !! r = None →
  (∀ r' ic', m !! r' = Some ic' → ¬ In r (refs ic')) →
  List.NoDup (refs n) →
  updateRef r (processItem ic) (applyAll m n) = applyAll (<[r := ic]> m) n.
Proof.
  intros Hm Hic.
  induction n as [d|d|r0 t c kids IH] using node_ind'; intros Hnd; try reflexivity.
  assert (Hkids : List.map (updateRef r (processItem ic)) (List.map (applyAll m) kids)
                  = List.map (applyAll (<[r := ic]> m)) kids).
  { rewrite List.map_map. apply map_ext_in. intros k Hk.
    rewrite List.Forall_forall in IH. apply IH; [exact Hk|].
    eauto using NoDup_refs_kid. }
  simpl. destruct (N.eqb_spec r0 r) as [->|Hne].
  - rewrite Hm, lookup_insert_eq. simpl. rewrite N.eqb_refl. simpl.
    do 3 f_equal. apply map_ext_in. intros k Hk. apply applyAll_ext.
    intros r' Hr'. rewrite lookup_insert_ne; [reflexivity|].
    intros ->. eapply NoDup_refs_root; eauto.
  - rewrite lookup_insert_ne by congruence.
    destruct (m !! r0) as [ic0|] eqn:E0; simpl.
    + destruct (N.eqb_spec r0 r) as [?|_]; [contradiction|].
      simpl. rewrite (updateRef_notin r _ ic0) by eauto.
      rewrite sliceFirstText_map, Hkids; [reflexivity|reflexivity|].
      apply nodeType_updateRef.
    + destruct (N.eqb_spec r0 r) as [?|_]; [contradiction|].
      rewrite Hkids. reflexivity.
Qed.

(** *** The icons handed out by the loop *)

Lemma refs_movedIcon k : refs (movedIcon k) = [k; k + 1; k + 2; k + 3].
Proof. reflexivity. Qed.

Lemma assign_snoc sel li next :
  assign (sel ++ [li]) next
  = (<[ref li := movedIcon (snd (assign sel next))]> (fst (assign sel next)),
     snd (assign sel next) + 4).
Proof. unfold assign. rewrite fold_left_app. reflexivity. Qed.

Lemma assign_snd sel next : next <= snd (assign sel next).
Proof.
  induction sel as [|li sel IH] using rev_ind; [simpl; lia|].
  rewrite assign_snoc. simpl. lia.
Qed.

Lemma assign_lookup sel next r ic :
  fst (assign sel next) !! r = Some ic →
  In r (List.map ref sel) ∧ ∃ k, next <= k ∧ ic = movedIcon k.
Proof.
  induction sel as [|li sel IH] using rev_ind.
  - simpl. rewrite lookup_empty. discriminate.
  - rewrite assign_snoc, List.map_app. simpl. rewrite lookup_insert.
    destruct (decide (ref li = r)) as [<-|Hne].
    + intros [= <-]. split; [apply in_or_app; right; left; reflexivity|].
      exists (snd (assign sel next)). split; [apply assign_snd|reflexivity].
    + intros H. destruct (IH H) as [Hin Hk]. split; [|exact Hk].
      apply in_or_app. left. exact Hin.
Qed.

Lemma assign_lookup_in sel next r :
  In r (List.map ref sel) → is_Some (fst (assign sel next) !! r).
Proof.
  induction sel as [|li sel IH] using rev_ind; [intros []|].
  rewrite assign_snoc, List.map_app. simpl. rewrite lookup_insert.
  intros Hin. destruct (decide (ref li = r)) as [<-|Hne]; [eauto|].
  apply in_app_or in Hin. destruct Hin as [Hin|[Hin|[]]]; [auto|contradiction].
Qed.

(** *** The loop produces [applyAll] of the assignment *)

Lemma forEach_applyAll sel el next :
  List.NoDup (List.map ref sel) →
  List.NoDup (refs el) →
  Forall (fun li => ref li < next) sel →
  fold_left forEachBody sel (el, next)
  = (applyAll (fst (assign sel next)) el, snd (assign sel next)).
Proof.
  intros Hsel Hel. induction sel as [|li sel IH] using rev_ind; intros Hlt.
  - simpl. rewrite applyAll_empty. reflexivity.
  - rewrite List.map_app in Hsel. simpl in Hsel.
    apply Forall_app in Hlt. destruct Hlt as [Hlt Hli].
    inversion Hli as [|? ? Hli' _]; subst.
    rewrite fold_left_app. simpl. rewrite IH; eauto using NoDup_app_remove_r.
    rewrite assign_snoc. unfold forEachBody. simpl. f_equal.
    apply updateRef_applyAll; [| |exact Hel].
    + destruct (fst (assign sel next) !! ref li) as [ic|] eqn:E; [|reflexivity].
      apply assign_lookup in E. destruct E as [Hin _]. exfalso.
      apply NoDup_remove_2 in Hsel. apply Hsel. rewrite app_nil_r. exact Hin.
    + intros r' ic' E. apply assign_lookup in E. destruct E as [_ (k & Hk & ->)].
      rewrite refs_movedIcon. simpl. lia.
Qed.

(** *** Looking an element object up *)

Lemma lookupRef_Element r r' t c kids :
  lookupRef r (Element r' t c kids)
  = if r' =? r then Some (Element r' t c kids) else lookupRefs r kids.
Proof.
  simpl. destruct (r' =? r); [reflexivity|].
  induction kids as [|k kids IH]; simpl; [reflexivity|].
  destruct (lookupRef r k); [reflexivity|exact IH].
Qed.

Lemma lookupRef_notin r n : ¬ In r (refs n) → lookupRef r n = None.
Proof.
  induction n as [d|d|r0 t c kids IH] using node_ind'; intros Hr; try reflexivity.
  rewrite refs_Element in Hr. rewrite lookupRef_Element.
  destruct (N.eqb_spec r0 r) as [->|Hne]; [exfalso; apply Hr; left; reflexivity|].
  assert (Hk : ∀ k, In k kids → ¬ In r (refs k)).
  { intros k Hk Hin. apply Hr. right. eauto using in_refs_kid. }
  clear Hr. induction kids as [|k kids IHk]; simpl; [reflexivity|].
  inversion IH; subst.
  rewrite H1 by (apply Hk; left; reflexivity).
  apply IHk; [assumption|]. intros k' Hk'. apply Hk. right. exact Hk'.
Qed.

Lemma elements_ref_in e n : In e (elements n) → In (ref e) (refs n).
Proof. intros H. unfold refs. apply in_map. exact H. Qed.

Lemma refs_concat kids :
  concat (List.map refs kids) = List.map ref (concat (List.map elements kids)).
Proof. unfold refs. rewrite concat_map, List.map_map. reflexivity. Qed.

Lemma NoDup_app_disj {A} (l1 l2 : list A) x :
  List.NoDup (l1 ++ l2) → In x l2 → ¬ In x l1.
Proof.
  induction l1 as [|a l1 IH]; simpl; intros Hnd H2 H1; [contradiction|].
  inversion Hnd; subst. destruct H1 as [->|H1].
  - apply H3. apply in_or_app. right. exact H2.
  - exact (IH H4 H2 H1).
Qed.

Lemma lookupRef_elements e n :
  List.NoDup (refs n) → In e (elements n) → lookupRef (ref e) n = Some e.
Proof.
  induction n as [d|d|r0 t c kids IH] using node_ind'; intros Hnd He;
    try contradiction.
  rewrite lookupRef_Element. rewrite refs_Element in Hnd.
  simpl in He. destruct He as [<-|He]; [simpl; rewrite N.eqb_refl; reflexivity|].
  inversion Hnd as [|? ? Hr0 Hnd']; subst.
  destruct (N.eqb_spec r0 (ref e)) as [Heq|_].
  { exfalso. apply Hr0. rewrite refs_concat, Heq. apply in_map. exact He. }
  clear Hnd Hr0. induction kids as [|k kids IHk]; simpl in *; [contradiction|].
  inversion IH; subst. apply in_app_or in He. destruct He as [He|He].
  - rewrite H1; [reflexivity| |exact He]. eapply NoDup_app_remove_r; eauto.
  - rewrite lookupRef_notin.
    + apply IHk; [assumption|exact He|]. eapply NoDup_app_remove_l; eauto.
    + eapply NoDup_app_disj; [exact Hnd'|].
      rewrite refs_concat. apply in_map. exact He.
Qed.

Lemma lookupRef_applyAll m r n :
  (∀ r' ic', m !! r' = Some ic' → ¬ In r (refs ic')) →
  lookupRef r (applyAll m n) = applyAll m <$> lookupRef r n.
Proof.
  intros Hic.
  induction n as [d|d|r0 t c kids IH] using node_ind'; try reflexivity.
  assert (Hkids : lookupRefs r (List.map (applyAll m) kids)
                  = applyAll m <$> lookupRefs r kids).
  { induction kids as [|k kids IHk]; simpl; [reflexivity|].
    inversion IH; subst. rewrite H1.
    destruct (lookupRef r k); simpl; [reflexivity|]. apply IHk. assumption. }
  assert (Hslice : ∀ ks, lookupRefs r (sliceFirstText ks) = lookupRefs r ks).
  { clear. induction ks as [|k ks IHs]; simpl; [reflexivity|].
    destruct k as [d|d|r1 t1 c1 k1]; simpl; try reflexivity.
    - rewrite IHs. reflexivity.
    - rewrite IHs. reflexivity. }
  rewrite lookupRef_Element. simpl applyAll.
  destruct (m !! r0) as [ic0|] eqn:E0; simpl processItem;
    rewrite lookupRef_Element; destruct (r0 =? r) eqn:Er; simpl;
    try rewrite E0; try reflexivity.
  - rewrite (lookupRef_notin r ic0) by eauto. rewrite Hslice. exact Hkids.
  - exact Hkids.
Qed.

(** *** The array of list items and the selected ones *)

Lemma items_elements tag el li :
  In li (getElementsByTagName tag el) → In li (elements el) ∧ tagName li = tag.
Proof.
  unfold getElementsByTagName. rewrite filter_In. intros [Hin Htag].
  split; [|apply String.eqb_eq; exact Htag].
  destruct el as [d|d|r t c kids]; simpl in *; try contradiction.
  right. exact Hin.
Qed.

Lemma NoDup_map_filter {A B} (f : A → B) p l :
  List.NoDup (List.map f l) → List.NoDup (List.map f (List.filter p l)).
Proof.
  induction l as [|a l IH]; simpl; intros Hnd; [constructor|].
  inversion Hnd; subst. destruct (p a); simpl; [|auto].
  constructor; [|auto]. intros Hin. apply H1.
  apply in_map_iff in Hin. destruct Hin as (x & Hx & Hin).
  apply filter_In in Hin. destruct Hin as [Hin _].
  rewrite <- Hx. apply in_map. exact Hin.
Qed.

Lemma ref_inj l a b :
  List.NoDup (List.map ref l) → In a l → In b l → ref a = ref b → a = b.
Proof.
  induction l as [|x l IH]; simpl; intros Hnd Ha Hb Hab; [contradiction|].
  inversion Hnd; subst. destruct Ha as [->|Ha], Hb as [->|Hb]; auto.
  - exfalso. apply H1. rewrite Hab. apply in_map. exact Hb.
  - exfalso. apply H1. rewrite <- Hab. apply in_map. exact Ha.
Qed.

Lemma NoDup_items tag el :
  List.NoDup (refs el) → List.NoDup (List.map ref (getElementsByTagName tag el)).
Proof.
  intros Hnd. unfold getElementsByTagName. apply NoDup_map_filter.
  destruct el as [d|d|r t c kids]; simpl; try constructor.
  rewrite refs_Element, refs_concat in Hnd. inversion Hnd; subst. assumption.
Qed.

Lemma render_applyAll el next :
  wf (el, next) →
  renderMovedTasks (el, next)
  = (applyAll (fst (assign (List.filter isMoved (getElementsByTagName "li" el)) next)) el,
     snd (assign (List.filter isMoved (getElementsByTagName "li" el)) next)).
Proof.
  intros [Hnd Hlt]. simpl in Hnd, Hlt. unfold renderMovedTasks. simpl fst.
  apply forEach_applyAll; [apply NoDup_map_filter, NoDup_items; exact Hnd|exact Hnd|].
  apply List.Forall_forall. intros li Hli. apply filter_In in Hli.
  destruct Hli as [Hli _]. apply items_elements in Hli. destruct Hli as [Hli _].
  rewrite List.Forall_forall in Hlt. apply Hlt. apply elements_ref_in. exact Hli.
Qed.

(** An item receives an icon exactly when the filter selected it. *)
Lemma selected_lookup el next li :
  List.NoDup (refs el) →
  In li (getElementsByTagName "li" el) →
  match fst (assign (List.filter isMoved (getElementsByTagName "li" el)) next) !! ref li with
  | Some ic => isMoved li = true ∧ ∃ k, next <= k ∧ ic = movedIcon k
  | None => isMoved li = false
  end.
Proof.
  intros Hnd Hli.
  destruct (fst (assign _ next) !! ref li) as [ic|] eqn:E.
  - apply assign_lookup in E. destruct E as [Hin Hk]. split; [|exact Hk].
    apply in_map_iff in Hin. destruct Hin as (li' & Href & Hin).
    apply filter_In in Hin. destruct Hin as [Hin Hmv].
    assert (li' = li) as <-; [|exact Hmv].
    apply (ref_inj (getElementsByTagName "li" el)); auto using NoDup_items.
  - destruct (isMoved li) eqn:Hmv; [|reflexivity].
    assert (Hin : In (ref li) (List.map ref (List.filter isMoved (getElementsByTagName "li" el)))).
    { apply in_map. apply filter_In. auto. }
    apply (assign_lookup_in _ next) in Hin. rewrite E in Hin.
    destruct Hin as [? [=]].
Qed.

Lemma icons_fresh el next r :
  Forall (fun r => r < next) (refs el) →
  In r (refs el) →
  ∀ r' ic', fst (assign (List.filter isMoved (getElementsByTagName "li" el)) next) !! r' = Some ic' →
            ¬ In r (refs ic').
Proof.
  intros Hlt Hr r' ic' E. apply assign_lookup in E. destruct E as [_ (k & Hk & ->)].
  rewrite List.Forall_forall in Hlt. specialize (Hlt r Hr).
  rewrite refs_movedIcon. simpl. lia.
Qed.

(** *** What the loop does to the children of one item *)



Lemma view_applyAll m n : view (applyAll m n) = view n.
Proof. destruct n; simpl; try reflexivity. destruct (m !! ref0); reflexivity. Qed.

Lemma map_view_applyAll m ks :
  List.map view (List.map (applyAll m) ks) = List.map view ks.
Proof. rewrite List.map_map. apply map_ext. intros k. apply view_applyAll. Qed.


Lemma addClass_new cls l :
  existsb (String.eqb cls) l = false → addClass cls l = l ++ [cls].
Proof. unfold addClass. intros ->. reflexivity. Qed.


(** *** Text content after the loop *)

Lemma startsWith_app s r p : startsWith s p = true → startsWith (s ++ r) p = true.
Proof.
  revert s. induction p as [|a p IH]; intros s; [reflexivity|].
  destruct s as [|c s]; simpl; [discriminate|].
  intros H. apply andb_prop in H. destruct H as [-> H]. simpl. auto.
Qed.

Lemma lit_moved : lit "[>]" = [91; 62; 93].
Proof. reflexivity. Qed.

Lemma trimLeft_prefix_app x r a p :
  startsWith (trimLeft x) (a :: p) = true →
  startsWith (trimLeft (x ++ r)) (a :: p) = true.
Proof.
  induction x as [|c x IH]; [discriminate|].
  cbn [trimLeft app]. destruct (isWhiteSpace c); [exact IH|].
  intros H. apply (startsWith_app (c :: x) r). exact H.
Qed.

Lemma moved_prefix_app x r :
  startsWith (trimLeft x) (lit "[>]") = true →
  startsWith (trimLeft (x ++ r)) (lit "[>]") = true.
Proof. rewrite lit_moved. apply trimLeft_prefix_app. Qed.

(** Text inserted in front of a moved glyph, when it starts with a line
    feed, cannot complete a glyph begun before it. *)
Lemma no_new_match p x y :
  startsWith (trimLeft (p ++ x)) (lit "[>]") = false →
  startsWith (trimLeft x) (lit "[>]") = true →
  startsWith (trimLeft (p ++ 10 :: y)) (lit "[>]") = false.
Proof.
  rewrite lit_moved. induction p as [|c p IH]; cbn [app].
  - intros H1 H2. congruence.
  - cbn [trimLeft]. destruct (isWhiteSpace c); [exact IH|].
    intros H _. destruct p as [|c2 [|c3 p]]; cbn [app startsWith] in *.
    + change (10 =? 62) with false. rewrite andb_false_r. reflexivity.
    + change (10 =? 93) with false. rewrite !andb_false_r. reflexivity.
    + exact H.
Qed.

Local Abbreviation childText :=
  (fun k : node => match k with Comment _ => [] | _ => textContent k end).

Lemma textContent_Element r t c kids :
  textContent (Element r t c kids) = concat (List.map childText kids).
Proof. reflexivity. Qed.

Lemma elements_sliceFirstText ks :
  concat (List.map elements (sliceFirstText ks)) = concat (List.map elements ks).
Proof.
  induction ks as [|k ks IH]; simpl; [reflexivity|].
  destruct k as [d|d|r t c kids]; simpl; try reflexivity; rewrite IH; reflexivity.
Qed.

(** Either the text of a subtree is what it was, or it changes for the
    first time where a selected item starts: there an icon's text, which
    starts with a line feed, now precedes the rest. *)
Lemma textContent_applyAll m n :
  (∀ e ic, In e (elements n) → m !! ref e = Some ic →
           isMoved e = true ∧ ∃ k, ic = movedIcon k) →
  textContent (applyAll m n) = textContent n
  ∨ ∃ p x y, textContent n = p ++ x
             ∧ textContent (applyAll m n) = p ++ 10 :: y
             ∧ startsWith (trimLeft x) (lit "[>]") = true.
Proof.
  induction n as [d|d|r t c kids IH] using node_ind'; intros Hsel;
    try (left; reflexivity).
  simpl applyAll. destruct (m !! r) as [ic|] eqn:E.
  - right. destruct (Hsel (Element r t c kids) ic) as [Hmv (k & ->)];
      [left; reflexivity|exact E|].
    exists [], (textContent (Element r t c kids)). eexists.
    split; [reflexivity|]. split.
    + simpl processItem. rewrite textContent_Element. simpl. reflexivity.
    + unfold isMoved in Hmv. apply andb_prop in Hmv. apply Hmv.
  - rewrite !textContent_Element.
    assert (Hkids : ∀ e ic, In e (concat (List.map elements kids)) →
                            m !! ref e = Some ic →
                            isMoved e = true ∧ ∃ k, ic = movedIcon k).
    { intros e ic He. apply Hsel. right. exact He. }
    clear Hsel E. induction kids as [|k kids IHk]; [left; reflexivity|].
    inversion IH as [|? ? Hk IH']; subst. simpl.
    assert (Hhead : childText (applyAll m k) = childText k
                    ∨ ∃ p x y, childText k = p ++ x
                               ∧ childText (applyAll m k) = p ++ 10 :: y
                               ∧ startsWith (trimLeft x) (lit "[>]") = true).
    { destruct k as [d|d|r1 t1 c1 k1]; try (left; reflexivity).
      assert (Hsub : ∀ e ic, In e (elements (Element r1 t1 c1 k1)) →
                             m !! ref e = Some ic →
                             isMoved e = true ∧ ∃ k, ic = movedIcon k).
      { intros e ic He. apply Hkids. cbn [List.map concat].
        apply in_or_app. left. exact He. }
      specialize (Hk Hsub). clear - Hk. cbv beta.
      cbn [applyAll] in *. destruct (m !! r1); exact Hk. }
    destruct Hhead as [->|(p & x & y & Hx & Hy & Hm)].
    + destruct IHk as [->|(p & x & y & Hx & Hy & Hm)].
      * exact IH'.
      * intros e ic He. apply Hkids. simpl. apply in_or_app. right. exact He.
      * left. reflexivity.
      * right. exists (childText k ++ p), x, y.
        rewrite Hx, Hy, <- !app_assoc. auto.
    + right. exists p, (x ++ concat (List.map childText kids)).
      eexists. rewrite Hx, Hy, <- !app_assoc. split; [reflexivity|].
      split; [reflexivity|]. apply moved_prefix_app. exact Hm.
Qed.

(** *** The elements of the section after the loop *)

Lemma elements_applyAll m n x :
  In x (elements (applyAll m n)) →
  (∃ e, In e (elements n) ∧ x = applyAll m e)
  ∨ (∃ r ic, m !! r = Some ic ∧ In x (elements ic)).
Proof.
  induction n as [d|d|r t c kids IH] using node_ind';
    try (simpl; intros H; contradiction H).
  assert (Hkids : In x (concat (List.map elements (List.map (applyAll m) kids))) →
                  (∃ e, In e (concat (List.map elements kids)) ∧ x = applyAll m e)
                  ∨ (∃ r ic, m !! r = Some ic ∧ In x (elements ic))).
  { clear - IH. induction kids as [|k kids IHk]; simpl; [intros []|].
    inversion IH; subst. intros Hin. apply in_app_or in Hin.
    destruct Hin as [Hin|Hin].
    - destruct (H1 Hin) as [(e & He & ->)|?]; [left|right; assumption].
      exists e. split; [apply in_or_app; left; exact He|reflexivity].
    - destruct (IHk H2 Hin) as [(e & He & ->)|?]; [left|right; assumption].
      exists e. split; [apply in_or_app; right; exact He|reflexivity]. }
  intros Hin.
  assert (Hcases : x = applyAll m (Element r t c kids)
                   ∨ (∃ ic, m !! r = Some ic ∧ In x (elements ic))
                   ∨ In x (concat (List.map elements (List.map (applyAll m) kids)))).
  { simpl in Hin. destruct (m !! r) as [ic|] eqn:E; simpl in Hin.
    - destruct Hin as [<-|Hin]; [left; simpl; rewrite E; reflexivity|].
      apply in_app_or in Hin. destruct Hin as [Hin|Hin]; [right; left; eauto|].
      rewrite elements_sliceFirstText in Hin. right; right. exact Hin.
    - destruct Hin as [<-|Hin]; [left; simpl; rewrite E; reflexivity|].
      right; right. exact Hin. }
  destruct Hcases as [->|[(ic & E & Hx)|Hx]].
  - left. exists (Element r t c kids). split; [left|]; reflexivity.
  - right. eauto.
  - destruct (Hkids Hx) as [(e & He & ->)|?]; [left|right; assumption].
    exists e. split; [right; exact He|reflexivity].
Qed.

Lemma tagName_applyAll m n : tagName (applyAll m n) = tagName n.
Proof. destruct n; simpl; try reflexivity. destruct (m !! ref0); reflexivity. Qed.

Lemma elements_trans e e' n :
  In e (elements n) → In e' (elements e) → In e' (elements n).
Proof.
  induction n as [d|d|r t c kids IH] using node_ind';
    try (simpl; intros H; contradiction H).
  simpl. intros [<-|He] He'; [exact He'|]. right.
  apply in_concat in He. destruct He as (l & Hl & He).
  apply in_map_iff in Hl. destruct Hl as (k & <- & Hk).
  rewrite List.Forall_forall in IH. specialize (IH k Hk He He').
  apply in_concat. exists (elements k). split; [apply in_map; exact Hk|exact IH].
Qed.

Lemma hasClass_addClass cls l : existsb (String.eqb cls) (addClass cls l) = true.
Proof.
  unfold addClass. destruct (existsb (String.eqb cls) l) eqn:E; [exact E|].
  rewrite existsb_app. simpl. rewrite String.eqb_refl, orb_true_r. reflexivity.
Qed.

Lemma elements_applyAll_kids m kids x :
  In x (concat (List.map elements (List.map (applyAll m) kids))) →
  (∃ e, In e (concat (List.map elements kids)) ∧ x = applyAll m e)
  ∨ (∃ r ic, m !! r = Some ic ∧ In x (elements ic)).
Proof.
  induction kids as [|k kids IH]; simpl; [intros []|].
  intros Hin. apply in_app_or in Hin. destruct Hin as [Hin|Hin].
  - destruct (elements_applyAll _ _ _ Hin) as [(e & He & ->)|?];
      [left|right; assumption].
    exists e. split; [apply in_or_app; left; exact He|reflexivity].
  - destruct (IH Hin) as [(e & He & ->)|?]; [left|right; assumption].
    exists e. split; [apply in_or_app; right; exact He|reflexivity].
Qed.

(** An element of the section that received an icon passed the filter. *)
Lemma selected_elements el next e ic :
  List.NoDup (refs el) →
  In e (elements el) →
  fst (assign (List.filter isMoved (getElementsByTagName "li" el)) next) !! ref e = Some ic →
  isMoved e = true ∧ ∃ k, ic = movedIcon k.
Proof.
  intros Hnd He E. apply assign_lookup in E. destruct E as [Hin (k & _ & ->)].
  split; [|eauto]. apply in_map_iff in Hin. destruct Hin as (li & Href & Hin).
  apply filter_In in Hin. destruct Hin as [Hin Hmv].
  apply items_elements in Hin. destruct Hin as [Hin _].
  assert (li = e) as <-; [|exact Hmv].
  apply (ref_inj (elements el)); auto.
Qed.

Lemma root_not_selected r t c kids next :
  List.NoDup (refs (Element r t c kids)) →
  fst (assign (List.filter isMoved (getElementsByTagName "li" (Element r t c kids))) next) !! r
  = None.
Proof.
  intros Hnd. destruct (fst (assign _ next) !! r) as [ic|] eqn:E; [|reflexivity].
  exfalso. apply assign_lookup in E. destruct E as [Hin _].
  apply in_map_iff in Hin. destruct Hin as (li & Href & Hin).
  apply filter_In in Hin. destruct Hin as [Hin _].
  unfold getElementsByTagName in Hin. apply filter_In in Hin.
  destruct Hin as [Hin _]. simpl in Hin.
  rewrite refs_Element, refs_concat in Hnd. inversion Hnd as [|? ? Hr _].
  apply Hr. rewrite <- Href. apply in_map. exact Hin.
Qed.

(** After the loop no list item of the section passes the filter. *)
Lemma nothing_left el next x :
  wf (el, next) →
  In x (getElementsByTagName "li" (fst (renderMovedTasks (el, next)))) →
  isMoved x = false.
Proof.
  intros Hwf Hx. rewrite render_applyAll in Hx by exact Hwf.
  destruct Hwf as [Hnd Hlt]. simpl in Hnd, Hlt. simpl fst in Hx.
  destruct el as [d|d|r0 t0 c0 kids0];
    try (unfold getElementsByTagName in Hx; simpl in Hx; contradiction).
  pose proof (root_not_selected r0 t0 c0 kids0 next Hnd) as Hroot.
  pose proof (selected_elements (Element r0 t0 c0 kids0) next) as Hsel.
  pose proof (selected_lookup (Element r0 t0 c0 kids0) next) as Hlook.
  pose proof (assign_lookup
                (List.filter isMoved (getElementsByTagName "li" (Element r0 t0 c0 kids0)))
                next) as Hicon.
  set (m := fst (assign _ next)) in *.
  unfold getElementsByTagName in Hx. apply filter_In in Hx.
  destruct Hx as [Hx Htag]. apply String.eqb_eq in Htag.
  cbn [applyAll] in Hx. rewrite Hroot in Hx. cbn [childNodes] in Hx.
  destruct (elements_applyAll_kids _ _ _ Hx) as [(e & He & ->)|(r & ic & E & Hic)].
  - assert (Hel : In e (elements (Element r0 t0 c0 kids0))) by (right; exact He).
    rewrite tagName_applyAll in Htag.
    destruct e as [d|d|r t c kids]; try discriminate.
    assert (Hsub : ∀ e' ic', In e' (elements (Element r t c kids)) →
                             m !! ref e' = Some ic' →
                             isMoved e' = true ∧ ∃ k, ic' = movedIcon k).
    { intros e' ic' He' E'. apply (Hsel e' ic'); auto.
      eapply elements_trans; eauto. }
    pose proof (textContent_applyAll m _ Hsub) as Htext.
    specialize (Hlook (Element r t c kids) Hnd).
    cbn [ref] in Hlook. cbn [applyAll] in *.
    destruct (m !! r) as [ic|] eqn:E.
    + unfold isMoved, hasClass. cbn [processItem classList].
      rewrite hasClass_addClass. reflexivity.
    + assert (Hmv : isMoved (Element r t c kids) = false).
      { apply Hlook. unfold getElementsByTagName. apply filter_In.
        split; [exact He|apply String.eqb_eq; exact Htag]. }
      unfold isMoved, hasClass, getText in *. cbn [classList] in *.
      destruct (existsb (String.eqb "task-list-item") c); [reflexivity|].
      cbn [negb andb] in *.
      destruct Htext as [->|(p & y & z & Hy & -> & Hm)]; [exact Hmv|].
      rewrite Hy in Hmv. eapply no_new_match; eauto.
  - apply Hicon in E. destruct E as [_ (k & _ & ->)].
    simpl in Hic. repeat (destruct Hic as [<-|Hic]; [discriminate|]).
    contradiction.
Qed.

Lemma exampleSection_wf : wf (exampleSection, 100).
Proof.
  split; cbn.
  - repeat (constructor; [cbn; lia|]). constructor.
  - repeat constructor; lia.
Defined.


Lemma filter_none {A} (p : A → bool) l :
  (∀ x, In x l → p x = false) → List.filter p l = [].
Proof.
  induction l as [|a l IH]; intros H; [reflexivity|].
  simpl. rewrite (H a) by (left; reflexivity). apply IH.
  intros x Hx. apply H. right. exact Hx.
Qed.

(** C10.  The post-processor is idempotent on a section whose element
    objects are distinct: run on its own output it selects no list item,
    so that nothing changes; in particular no item loses a prefix twice. *)
Theorem renderMovedTasks_idempotent (el : node) (next : N) :
  wf (el, next) →
  renderMovedTasks (renderMovedTasks (el, next)) = renderMovedTasks (el, next).
Proof.
  intros Hwf. unfold renderMovedTasks at 1.
  rewrite (filter_none isMoved); [reflexivity|].
  intros x. apply nothing_left. exact Hwf.
Qed.


Lemma renderMovedTasks_idempotent_witness :
  wf (exampleSection, 100)
  ∧ renderMovedTasks (renderMovedTasks (exampleSection, 100))
    = renderMovedTasks (exampleSection, 100).
Proof.
  split; [exact exampleSection_wf|].
  exact (renderMovedTasks_idempotent exampleSection 100 exampleSection_wf).
Defined.

End DomFacts.

(* ===================================================================== *)
(** ** Facts about the repeat rule evaluator                             *)
(* ===================================================================== *)

Module RepeatFacts.
Import Repeat.

Open Scope Z_scope.

Lemma before_trans a b c : before a b → before b c → before a c.
Proof. unfold before. lia. Qed.

Lemma nextDay_before d : before d (nextDay d).
Proof.
  unfold nextDay, before. destruct d as [y m dd]; simpl.
  destruct (Z.ltb_spec dd (daysInMonth y m)); simpl; [lia|].
  destruct (Z.ltb_spec m 12); simpl; lia.
Qed.

Lemma daysInMonth_range y m : 28 <= daysInMonth y m <= 31.
Proof.
  unfold daysInMonth. destruct (m =? 2); [destruct (isLeap y); lia|].
  destruct ((m =? 4) || (m =? 6) || (m =? 9) || (m =? 11)); lia.
Qed.

Lemma nextDay_valid d : validDate d → validDate (nextDay d).
Proof.
  unfold validDate, nextDay. destruct d as [y m dd]; simpl. intros [Hm Hd].
  destruct (Z.ltb_spec dd (daysInMonth y m)); simpl; [lia|].
  destruct (Z.ltb_spec m 12); simpl.
  - pose proof (daysInMonth_range y (m + 1)). lia.
  - pose proof (daysInMonth_range (y + 1) 1). lia.
Qed.

Lemma iter_nextDay_valid n d : validDate d → validDate (Nat.iter n nextDay d).
Proof. induction n; simpl; auto using nextDay_valid. Qed.

Lemma iter_nextDay_before n d : (0 < n)%nat → before d (Nat.iter n nextDay d).
Proof.
  induction n as [|n IH]; [lia|]. intros _. simpl.
  destruct n as [|n]; [apply nextDay_before|].
  eapply before_trans; [apply IH; lia|apply nextDay_before].
Qed.

Lemma addDays_after n d :
  1 <= n → validDate d → validDate (addDays n d) ∧ before d (addDays n d).
Proof.
  intros Hn Hd. unfold addDays. split; [apply iter_nextDay_valid; exact Hd|].
  apply iter_nextDay_before. lia.
Qed.

Lemma isLeap_spec y :
  isLeap y = true ↔ (y mod 4 = 0 ∧ y mod 100 ≠ 0) ∨ y mod 400 = 0.
Proof.
  unfold isLeap. rewrite orb_true_iff, andb_true_iff, negb_true_iff.
  rewrite !Z.eqb_eq, Z.eqb_neq. reflexivity.
Qed.

Lemma dayNumber_nextDay d : validDate d → dayNumber (nextDay d) = dayNumber d + 1.
Proof.
  unfold validDate, nextDay. destruct d as [y m dd]; simpl. intros [Hm Hd].
  destruct (Z.ltb_spec dd (daysInMonth y m)) as [Hlt|Hge].
  { unfold dayNumber; simpl. lia. }
  assert (Hdd : dd = daysInMonth y m) by lia. clear Hd Hge.
  assert (Hcases : m = 1 ∨ m = 2 ∨ m = 3 ∨ m = 4 ∨ m = 5 ∨ m = 6 ∨ m = 7
                   ∨ m = 8 ∨ m = 9 ∨ m = 10 ∨ m = 11 ∨ m = 12) by lia.
  unfold dayNumber.
  destruct Hcases as [->|[->|[->|[->|[->|[->|[->|[->|[->|[->|[->| ->]]]]]]]]]]];
    subst dd; simpl; unfold daysInMonth; simpl;
    try (destruct (isLeap y) eqn:El;
         [apply isLeap_spec in El
         |assert (¬ ((y mod 4 = 0 ∧ y mod 100 ≠ 0) ∨ y mod 400 = 0))
            by (rewrite <- isLeap_spec, El; discriminate)]);
    Z.div_mod_to_equations; lia.
Qed.

Lemma dayNumber_iter k d :
  validDate d → dayNumber (Nat.iter k nextDay d) = dayNumber d + Z.of_nat k.
Proof.
  intros Hd. induction k as [|k IH]; [simpl; lia|].
  rewrite Nat.iter_succ, dayNumber_nextDay by (apply iter_nextDay_valid; exact Hd).
  lia.
Qed.

Lemma weekday_iter k d :
  validDate d → weekday (Nat.iter k nextDay d) = (weekday d + Z.of_nat k) mod 7.
Proof.
  intros Hd. unfold weekday. rewrite dayNumber_iter by exact Hd.
  Z.div_mod_to_equations. lia.
Qed.

Lemma iter_nextDay_shift k d :
  Nat.iter k nextDay (nextDay d) = Nat.iter (S k) nextDay d.
Proof. symmetry. apply Nat.iter_succ_r. Qed.

Lemma firstMatching_None ws d fuel :
  firstMatching ws d fuel = None →
  ∀ k, (1 <= k <= fuel)%nat → onWeekday ws (Nat.iter k nextDay d) = false.
Proof.
  revert d. induction fuel as [|fuel IH]; intros d H k Hk; [lia|].
  simpl in H. destruct (onWeekday ws (nextDay d)) eqn:E; [discriminate|].
  destruct k as [|[|k]]; [lia|exact E|].
  rewrite <- iter_nextDay_shift. apply IH; [exact H|lia].
Qed.

Lemma firstMatching_Some ws d fuel d' :
  firstMatching ws d fuel = Some d' →
  ∃ k, (1 <= k <= fuel)%nat ∧ d' = Nat.iter k nextDay d
       ∧ onWeekday ws d' = true
       ∧ ∀ j, (1 <= j < k)%nat → onWeekday ws (Nat.iter j nextDay d) = false.
Proof.
  revert d. induction fuel as [|fuel IH]; intros d H; [discriminate|].
  simpl in H. destruct (onWeekday ws (nextDay d)) eqn:E.
  - injection H as <-. exists 1%nat.
    split; [lia|]. split; [reflexivity|]. split; [exact E|].
    intros j Hj. lia.
  - destruct (IH _ H) as (k & Hk & -> & Hon & Hear). exists (S k).
    split; [lia|]. split; [apply iter_nextDay_shift|].
    split; [exact Hon|]. intros j Hj.
    destruct j as [|[|j]]; [lia|exact E|].
    rewrite <- iter_nextDay_shift. apply Hear. lia.
Qed.

Lemma firstMatching_total ws d :
  validDate d → ws ≠ [] → Forall (fun w => 0 <= w < 7) ws →
  ∃ d', firstMatching ws d 7 = Some d'.
Proof.
  intros Hd Hne Hws. destruct (firstMatching ws d 7) as [d'|] eqn:E; [eauto|].
  exfalso. destruct ws as [|w ws]; [congruence|]. inversion Hws; subst.
  pose proof (firstMatching_None _ _ _ E) as Hnone.
  set (k := Z.to_nat ((w - weekday d - 1) mod 7 + 1)).
  assert (Hk : (1 <= k <= 7)%nat).
  { subst k. pose proof (Z.mod_pos_bound (w - weekday d - 1) 7). lia. }
  specialize (Hnone k Hk). unfold onWeekday in Hnone. simpl in Hnone.
  apply orb_false_iff in Hnone. destruct Hnone as [Hw _].
  apply Z.eqb_neq in Hw. apply Hw. rewrite weekday_iter by exact Hd.
  subst k. rewrite Z2Nat.id by (pose proof (Z.mod_pos_bound (w - weekday d - 1) 7); lia).
  unfold weekday. Z.div_mod_to_equations. lia.
Qed.

Lemma addMonths_after n d :
  1 <= n → validDate d → validDate (addMonths n d) ∧ before d (addMonths n d).
Proof.
  unfold validDate, addMonths, before. destruct d as [y m dd]; simpl.
  intros Hn [Hm Hd]. set (t := y * 12 + (m - 1) + n).
  pose proof (daysInMonth_range (t / 12) (t mod 12 + 1)).
  assert (Ht : y * 12 + (m - 1) < t) by (subst t; lia).
  pose proof (Z.mod_pos_bound t 12).
  split; [split; lia|].
  destruct (Z.lt_ge_cases y (t / 12)) as [Hy|Hy]; [left; exact Hy|right].
  assert (Hdiv : t = 12 * (t / 12) + t mod 12) by (apply Z.div_mod; lia).
  split; [nia|]. left. nia.
Qed.

(** C6.  For a valid rule and a calendar date the evaluator yields a
    result, the result is a calendar date strictly after the date given,
    and the result is determined by the rule and the date. *)
Theorem nextOccurrence_total (rule : RepeatRule) (fromDate : date) :
  validRule rule →
  validDate fromDate →
  (∃ d, nextOccurrence rule fromDate = Some d
        ∧ validDate d ∧ before fromDate d)
  ∧ ∀ d1 d2, nextOccurrence rule fromDate = Some d1 →
             nextOccurrence rule fromDate = Some d2 → d1 = d2.
Proof.
  intros [Hn Hws] Hd. split; [|intros d1 d2 H1 H2; congruence].
  unfold nextOccurrence. destruct (interval rule).
  - eexists. split; [reflexivity|]. apply addDays_after; assumption.
  - destruct (weekdays rule) as [ws|].
    + destruct Hws as [Hne Hws].
      destruct (firstMatching_total ws fromDate Hd Hne Hws) as [d' E].
      exists d'. split; [exact E|].
      apply firstMatching_Some in E. destruct E as (k & Hk & -> & _).
      split; [apply iter_nextDay_valid; exact Hd|].
      apply iter_nextDay_before. lia.
    + eexists. split; [reflexivity|]. apply addDays_after; [lia|assumption].
  - eexists. split; [reflexivity|]. apply addMonths_after; assumption.
Qed.

Lemma nextOccurrence_total_witness :
  validRule {| interval := Month; count := 1; weekdays := None |}
  ∧ validDate {| year := 2021; month := 1; day := 31 |}
  ∧ nextOccurrence {| interval := Month; count := 1; weekdays := None |}
                   {| year := 2021; month := 1; day := 31 |}
    = Some {| year := 2021; month := 2; day := 28 |}
  ∧ ∃ d, nextOccurrence {| interval := Month; count := 1; weekdays := None |}
                        {| year := 2021; month := 1; day := 31 |} = Some d
         ∧ validDate d
         ∧ before {| year := 2021; month := 1; day := 31 |} d.
Proof.
  assert (Hr : validRule {| interval := Month; count := 1; weekdays := None |})
    by (split; [simpl; lia|exact I]).
  assert (Hd : validDate {| year := 2021; month := 1; day := 31 |})
    by (split; [simpl; lia|change (1 <= 31 <= 31); lia]).
  split; [exact Hr|]. split; [exact Hd|]. split; [reflexivity|].
  exact (proj1 (nextOccurrence_total _ _ Hr Hd)).
Defined.

End RepeatFacts.

(* ===================================================================== *)
(** ** Facts about the relocation engine                                 *)
(* ===================================================================== *)

Module RelocationFacts.
Import Repeat Relocation.

Lemma insertAfterHeader_In header newLine b lines :
  existsb (fun l => String.eqb l header) lines = true →
  In newLine (insertAfterHeader header newLine b lines).
Proof.
  induction lines as [|l rest IH]; simpl; [discriminate|].
  destruct (String.eqb l header); simpl.
  - intros _. destruct rest as [|r rest']; [|destruct r]; destruct b; simpl; auto.
  - intros H. right. auto.
Qed.

Lemma insertUnderHeader_In note header newLine b store :
  In newLine (readLines note (insertUnderHeader note header newLine b store)).
Proof.
  unfold insertUnderHeader, readLines, writeLines. rewrite lookup_insert_eq. simpl.
  destruct (existsb _ _) eqn:E; [apply insertAfterHeader_In; exact E|].
  apply in_or_app. right. apply in_or_app. right. right.
  apply in_or_app. right. left. reflexivity.
Qed.

Lemma readLines_writeLines_ne note note' lines store :
  note ≠ note' →
  readLines note' (writeLines note lines store) = readLines note' store.
Proof.
  intros Hne. unfold readLines, writeLines.
  rewrite lookup_insert_ne by exact Hne. reflexivity.
Qed.

(** A relocation whose origin line still matches commits, and the
    destination, when it is another note than the origin, then holds the
    new line: the conflict below is the only way a resolvable relocation
    leaves the destination as it was. *)
Lemma relocate_commits cfg resolveNote req store dest :
  resolveNote (destination req) = Some dest →
  lineMatches req store = true →
  fst (relocate cfg resolveNote req store) = Committed
  ∧ (origin req ≠ dest →
     In (newLine req) (readLines dest (snd (relocate cfg resolveNote req store)))).
Proof.
  intros Hres Hm. unfold relocate. rewrite Hres, Hm. cbn [negb fst snd].
  split; [reflexivity|]. intros Hne.
  destruct (decide _) as [_|_].
  - apply insertUnderHeader_In.
  - rewrite readLines_writeLines_ne by exact Hne. apply insertUnderHeader_In.
Qed.



End RelocationFacts.

(* ===================================================================== *)
(** ** Further facts: a series of focus changes                          *)
(* ===================================================================== *)

Module FocusFacts.
Import Controller Focus.

Lemma onFileOpen_invalid this file :
  isValid file = false → onFileOpen this file = (this, []).
Proof.
  destruct file as [f|]; simpl; [|reflexivity].
  intros ->. reflexivity.
Qed.

Lemma isValid_basename f : isValid (Some f) = true → basename f ≠ "".
Proof. simpl. destruct (basename f); [discriminate|discriminate]. Qed.

Lemma isValid_Some file : isValid file = true → ∃ f, file = Some f.
Proof. destruct file; [eauto|discriminate]. Qed.

Lemma scans_app es es' : scans (es ++ es') = scans es ++ scans es'.
Proof.
  induction es as [|[m|f] es IH]; simpl; [reflexivity|exact IH|].
  rewrite IH. reflexivity.
Qed.

(** X1.  After any series of notifications the remembered note is the
    file of the last valid one, and is unchanged when none was valid. *)
Theorem lastFile_notifyAll (this : plugin) (files : list (option TFile)) :
  lastFile (fst (notifyAll this files))
  = default (lastFile this) (last (List.filter isValid files)).
Proof.
  revert this. induction files as [|file files IH]; intros this; [reflexivity|].
  cbn [notifyAll List.filter fst]. destruct (isValid file) eqn:E.
  - destruct (isValid_Some _ E) as [f ->].
    rewrite (ControllerFacts.onFileOpen_valid this f (isValid_basename f E)).
    cbn [fst]. rewrite IH, last_cons. cbn [lastFile].
    destruct (last (List.filter isValid files)); reflexivity.
  - rewrite (onFileOpen_invalid this file E). cbn [fst]. apply IH.
Qed.

(** X2.  Notifications that the guard rejects can be left out of a series:
    the state reached and the effects are the same. *)
Theorem notifyAll_filter (this : plugin) (files : list (option TFile)) :
  notifyAll this files = notifyAll this (List.filter isValid files).
Proof.
  revert this. induction files as [|file files IH]; intros this; [reflexivity|].
  cbn [notifyAll List.filter]. destruct (isValid file) eqn:E.
  - cbn [notifyAll]. rewrite IH. reflexivity.
  - rewrite (onFileOpen_invalid this file E). cbn [fst snd app]. rewrite <- IH.
    destruct (notifyAll this files). reflexivity.
Qed.

Lemma scans_from_previous prev (fs : list TFile) :
  Forall (fun f => basename f ≠ "") fs →
  scans (snd (notifyAll {| lastFile := Some prev |} (List.map Some fs)))
  = flat_map (fun p => [fst p; snd p]) (zip (prev :: fs) fs).
Proof.
  revert prev. induction fs as [|f fs IH]; intros prev Hfs; [reflexivity|].
  inversion Hfs as [|? ? Hf Hfs']; subst. cbn [notifyAll List.map].
  rewrite (ControllerFacts.onFileOpen_valid _ f Hf). cbn [fst snd].
  rewrite scans_app, (IH f Hfs'). reflexivity.
Qed.

(** X3.  From a fresh plugin, a series of valid focus changes scans the
    first note once and then, at each change, the note that is left and
    the note that is entered: [2 n - 1] scans for [n] changes. *)
Theorem scans_of_focus_series (fs : list TFile) :
  Forall (fun f => basename f ≠ "") fs →
  scans (snd (notifyAll initial (List.map Some fs)))
  = take 1 fs ++ flat_map (fun p => [fst p; snd p]) (zip fs (drop 1 fs))
  ∧ length (scans (snd (notifyAll initial (List.map Some fs))))
    = (2 * length fs - 1)%nat.
Proof.
  intros Hfs. destruct fs as [|f fs]; [split; reflexivity|].
  inversion Hfs as [|? ? Hf Hfs']; subst.
  assert (Heq : scans (snd (notifyAll initial (List.map Some (f :: fs))))
                = f :: flat_map (fun p => [fst p; snd p]) (zip (f :: fs) fs)).
  { cbn [notifyAll List.map].
    rewrite (ControllerFacts.onFileOpen_valid _ f Hf). cbn [fst snd].
    rewrite scans_app, (scans_from_previous f fs Hfs'). reflexivity. }
  split; [exact Heq|]. rewrite Heq. clear. simpl. f_equal.
  revert f. induction fs as [|g fs IH]; intros f; [reflexivity|].
  simpl. rewrite IH. lia.
Qed.

Lemma scans_of_focus_series_witness :
  Forall (fun f => basename f ≠ "") [monday; tuesday; monday]
  ∧ scans (snd (notifyAll initial (List.map Some [monday; tuesday; monday])))
    = [monday; monday; tuesday; tuesday; monday].
Proof.
  assert (H : Forall (fun f => basename f ≠ "") [monday; tuesday; monday])
    by (repeat constructor; simpl; discriminate).
  split; [exact H|].
  exact (proj1 (scans_of_focus_series [monday; tuesday; monday] H)).
Defined.

End FocusFacts.

(* ===================================================================== *)
(** ** Further facts: the commands                                       *)
(* ===================================================================== *)

Module CommandsFacts.
Import Controller Commands.

Section WithTaskLine.

Variable isTask : TaskLine → bool.

(** X4.  [taskModalChecker] answers with a boolean whenever it returns:
    the bare [return] of its second test is never reached.  It answers
    [true] exactly when the active leaf shows a markdown view and the line
    under the cursor is a task, and it throws exactly when the leaf is
    [null]. *)
Theorem taskModalChecker_answers (this : plugin) (leaf : ActiveLeaf) :
  taskModalChecker isTask this leaf ≠ Return None
  ∧ (taskModalChecker isTask this leaf = Return (Some true)
     ↔ ∃ f editor,
         leaf = WorkspaceLeaf (MarkdownView f editor)
         ∧ isTask {| line := getLine editor (fst (getCursor editor));
                     lineNum := fst (getCursor editor);
                     file := f;
                     vault := this_vault this;
                     settings := this_settings this |} = true)
  ∧ (taskModalChecker isTask this leaf = Throw ↔ leaf = LeafNull).
Proof.
  destruct leaf as [| |[f editor|]]; simpl.
  - split; [discriminate|]. split; split; try discriminate.
    intros (f & e & H & _). discriminate H.
  - split; [discriminate|]. split; split; try discriminate; auto.
    intros (f & e & H & _). discriminate H.
  - split; [discriminate|]. split; split; try discriminate.
    + intros [= H]. eauto.
    + intros (f' & e' & [= <- <-] & H). rewrite H. reflexivity.
  - split; [discriminate|]. split; split; try discriminate.
    intros (f & e & H & _). discriminate H.
Qed.

(** X5.  When the checker has answered [true], the same command called
    without [checking] returns [undefined] after opening exactly one
    modal, its own, on the task line under the cursor, which is a task;
    the checking call itself opens nothing. *)
Theorem command_opens_the_checked_task (m : modal) (this : plugin)
    (leaf : ActiveLeaf) :
  taskModalChecker isTask this leaf = Return (Some true) →
  checkCallback isTask m this leaf true = Return (Some true, [])
  ∧ ∃ f editor,
      leaf = WorkspaceLeaf (MarkdownView f editor)
      ∧ isTask {| line := getLine editor (fst (getCursor editor));
                  lineNum := fst (getCursor editor);
                  file := f;
                  vault := this_vault this;
                  settings := this_settings this |} = true
      ∧ checkCallback isTask m this leaf false
        = Return (None,
                  [Open m {| line := getLine editor (fst (getCursor editor));
                             lineNum := fst (getCursor editor);
                             file := f;
                             vault := this_vault this;
                             settings := this_settings this |}]).
Proof.
  intros H. split; [unfold checkCallback; rewrite H; reflexivity|].
  destruct leaf as [| |[f editor|]]; simpl in H; try discriminate.
  injection H as H. exists f, editor. auto.
Qed.

(** X6.  Without [checking], a command opens a modal exactly when the
    active leaf shows a markdown view, whether or not the line under the
    cursor is a task; it returns without any effect for a view of another
    class, and throws exactly when there is no leaf. *)
Theorem command_without_checking (m : modal) (this : plugin) (leaf : ActiveLeaf) :
  ((∃ task, checkCallback isTask m this leaf false = Return (None, [Open m task]))
   ↔ ∃ f editor, leaf = WorkspaceLeaf (MarkdownView f editor))
  ∧ (checkCallback isTask m this leaf false = Return (None, [])
     ↔ leaf = WorkspaceLeaf OtherView)
  ∧ (checkCallback isTask m this leaf false = Throw
     ↔ leaf = LeafUndefined ∨ leaf = LeafNull).
Proof.
  destruct leaf as [| |[f editor|]]; simpl.
  - split; [|split]; split; try discriminate; auto.
    + intros [t H]. discriminate H.
    + intros (f & e & H). discriminate H.
  - split; [|split]; split; try discriminate; auto.
    + intros [t H]. discriminate H.
    + intros (f & e & H). discriminate H.
  - split; [|split]; split; try discriminate; eauto.
    intros [H|H]; discriminate H.
  - split; [|split]; split; try discriminate; auto.
    + intros [t H]. discriminate H.
    + intros (f & e & H). discriminate H.
    + intros [H|H]; discriminate H.
Qed.

End WithTaskLine.

Lemma command_opens_the_checked_task_witness :
  taskModalChecker exampleIsTask {| this_vault := 0; this_settings := 1 |} exampleLeaf
  = Return (Some true)
  ∧ checkCallback exampleIsTask TaskMoveModal {| this_vault := 0; this_settings := 1 |}
      exampleLeaf true
    = Return (Some true, []).
Proof.
  assert (H : taskModalChecker exampleIsTask {| this_vault := 0; this_settings := 1 |}
                exampleLeaf = Return (Some true)) by reflexivity.
  split; [exact H|].
  exact (proj1 (command_opens_the_checked_task exampleIsTask TaskMoveModal _ _ H)).
Defined.

End CommandsFacts.

(* ===================================================================== *)
(** ** Further facts: settings, their loading and the settings tab       *)
(* ===================================================================== *)

Module SettingsExtra.
Import Settings Plugin SettingsTab.

Lemma defaultSettings_keys k :
  is_Some (defaultSettings !! k) ↔ In k (List.map fst ISettings).
Proof.
  split.
  - intros [v Hv]. unfold defaultSettings in Hv.
    repeat (rewrite lookup_insert in Hv;
            destruct (decide _) as [<-|_] in Hv; [simpl; tauto|]).
    rewrite lookup_empty in Hv. discriminate.
  - simpl. intros [<-|[<-|[<-|[<-|[<-|[]]]]]]; eexists; reflexivity.
Qed.

(** X7.  A settings object is returned as it is by [settingsWithDefaults]
    exactly when it has every declared property. *)
Theorem settingsWithDefaults_fixed_point (s : gmap string value) :
  settingsWithDefaults s = s
  ↔ Forall (fun p => is_Some (s !! fst p)) ISettings.
Proof.
  split.
  - intros Heq. apply List.Forall_forall. intros [k t] Hin. simpl.
    rewrite <- Heq, SettingsFacts.settingsWithDefaults_lookup.
    destruct (s !! k); [eauto|]. apply defaultSettings_keys.
    apply (in_map fst) in Hin. exact Hin.
  - intros Hall. apply map_eq. intros k.
    rewrite SettingsFacts.settingsWithDefaults_lookup.
    destruct (s !! k) eqn:E; [reflexivity|].
    destruct (defaultSettings !! k) eqn:Ed; [|reflexivity]. exfalso.
    assert (Hk : In k (List.map fst ISettings))
      by (apply defaultSettings_keys; eauto).
    apply in_map_iff in Hk. destruct Hk as ([k' t] & <- & Hin).
    rewrite List.Forall_forall in Hall. specialize (Hall _ Hin).
    cbn [fst] in *. rewrite E in Hall. destruct Hall as [? [=]].
Qed.

Lemma after_snoc defaults ctor saved cs c :
  after defaults ctor saved (cs ++ [c]) = onChange c (after defaults ctor saved cs).
Proof. unfold after. rewrite fold_left_app. reflexivity. Qed.

(** X9.  After any series of changes made in the settings tab that has at
    least one change, what was persisted last is what the engine reads. *)
Theorem persisted_is_live defaults ctor saved (cs : list change) (c : change) :
  data (after defaults ctor saved (cs ++ [c]))
  = engineSettings (after defaults ctor saved (cs ++ [c])).
Proof.
  rewrite after_snoc.
  destruct (PluginFacts.after_invariant defaults ctor saved cs) as [Heq [s Hs]].
  rewrite (PluginFacts.onChange_Some c _ s Hs). unfold engineSettings.
  cbn [data heap taskHandler_settings]. rewrite Heq, lookup_insert_eq.
  reflexivity.
Qed.

(** X10.  Two changes made one after the other: when they concern the
    same property the second prevails, as if the first had not been made;
    otherwise their order does not matter. *)
Theorem onChange_onChange defaults ctor saved (cs : list change) (c1 c2 : change) :
  onChange c2 (onChange c1 (after defaults ctor saved cs))
  = if decide (property c1 = property c2)
    then onChange c2 (after defaults ctor saved cs)
    else onChange c1 (onChange c2 (after defaults ctor saved cs)).
Proof.
  destruct (PluginFacts.after_invariant defaults ctor saved cs) as [_ [s Hs]].
  set (st := after defaults ctor saved cs) in *.
  assert (H1 : ∀ c, heap (onChange c st) !! this_settings (onChange c st)
                    = Some (<[property c := new_value c]> s)).
  { intros c. rewrite (PluginFacts.onChange_Some c st s Hs).
    cbn [heap this_settings]. apply lookup_insert_eq. }
  rewrite (PluginFacts.onChange_Some c2 _ _ (H1 c1)).
  rewrite (PluginFacts.onChange_Some c1 st s Hs). cbn [heap this_settings taskHandler_settings].
  destruct (decide (property c1 = property c2)) as [Heq|Hne].
  - rewrite (PluginFacts.onChange_Some c2 st s Hs).
    rewrite insert_insert_eq, Heq, insert_insert_eq. reflexivity.
  - rewrite (PluginFacts.onChange_Some c1 _ _ (H1 c2)).
    rewrite (PluginFacts.onChange_Some c2 st s Hs).
    cbn [heap this_settings taskHandler_settings].
    rewrite !insert_insert_eq.
    rewrite (insert_insert_ne s) by (intros H; apply Hne; symmetry; exact H).
    reflexivity.
Qed.

(** X11.  The tab displayed again after a change shows the new value on
    the control that was changed and, on the two others, what they showed
    before. *)
Theorem display_after_change defaults ctor saved (cs : list change) (c : change) :
  ∃ before after',
    display (after defaults ctor saved cs) = Some before
    ∧ display (onChange c (after defaults ctor saved cs)) = Some after'
    ∧ length before = 3%nat ∧ length after' = 3%nat
    ∧ shown <$> (after' !! controlIndex c) = Some (Some (new_value c))
    ∧ ∀ i, i ≠ controlIndex c → after' !! i = before !! i.
Proof.
  destruct (PluginFacts.after_invariant defaults ctor saved cs) as [_ [s Hs]].
  exists (settingsOf s), (settingsOf (<[property c := new_value c]> s)).
  unfold display. rewrite (PluginFacts.onChange_Some c _ s Hs).
  cbn [heap this_settings]. rewrite Hs, lookup_insert_eq.
  split; [reflexivity|]. split; [reflexivity|].
  split; [reflexivity|]. split; [reflexivity|]. split.
  - destruct c; cbn; rewrite lookup_insert_eq; reflexivity.
  - intros i Hi. unfold settingsOf.
    destruct c; cbn [property controlIndex] in *;
      destruct i as [|[|[|i]]]; try congruence; cbn [lookup list_lookup];
      rewrite ?lookup_insert_ne by discriminate; reflexivity.
Qed.

End SettingsExtra.

(* ===================================================================== *)
(** ** Further facts: the preview post-processor                         *)
(* ===================================================================== *)

Module DomExtra.
Import Dom DomFacts.

Open Scope N_scope.

(** *** Identities stay distinct *)

Lemma refs_sliceFirstText ks :
  concat (List.map refs (sliceFirstText ks)) = concat (List.map refs ks).
Proof. rewrite !refs_concat, elements_sliceFirstText. reflexivity. Qed.

Lemma NoDup_app_disj_r {A} (l1 l2 : list A) x :
  List.NoDup (l1 ++ l2) → In x l1 → ¬ In x l2.
Proof. intros Hnd H1 H2. exact (NoDup_app_disj l1 l2 x Hnd H2 H1). Qed.

Lemma map_updateRef_notin r f ks :
  ¬ In r (concat (List.map refs ks)) → List.map (updateRef r f) ks = ks.
Proof.
  intros Hr. rewrite <- (List.map_id ks) at 2. apply map_ext_in.
  intros k Hk. apply updateRef_notin. intros Hin. apply Hr.
  eauto using in_refs_kid.
Qed.

Lemma refs_updateRef r ic n :
  In r (refs n) → List.NoDup (refs n) →
  Permutation (refs (updateRef r (processItem ic) n)) (refs ic ++ refs n).
Proof.
  induction n as [d|d|r0 t c kids IH] using node_ind'; intros Hr Hnd;
    try contradiction.
  rewrite refs_Element in Hr, Hnd. inversion Hnd as [|? ? Hr0 Hkids]; subst.
  cbn [updateRef]. destruct (N.eqb_spec r0 r) as [->|Hne].
  - cbn [processItem]. rewrite !refs_Element. cbn [List.map concat].
    rewrite refs_sliceFirstText. apply Permutation_cons_app.
    apply Permutation_refl.
  - destruct Hr as [?|Hr]; [contradiction|].
    rewrite !refs_Element. rewrite <- Permutation_middle. apply perm_skip.
    clear Hr0 Hnd. induction kids as [|k kids IHk]; [contradiction|].
    inversion IH as [|? ? Hk IH']; subst. cbn [List.map concat] in *.
    destruct (in_dec N.eq_dec r (refs k)) as [Hin|Hnin].
    + rewrite (map_updateRef_notin r _ kids)
        by (eapply NoDup_app_disj_r; eauto).
      rewrite app_assoc. apply Permutation_app_tail.
      apply Hk; [exact Hin|]. eapply NoDup_app_remove_r; eauto.
    + rewrite (updateRef_notin r _ k) by exact Hnin.
      apply in_app_or in Hr. destruct Hr as [?|Hr]; [contradiction|].
      rewrite Permutation_app_swap_app. apply Permutation_app_head.
      apply IHk; [exact IH'|exact Hr|]. eapply NoDup_app_remove_l; eauto.
Qed.

Lemma wf_forEachBody st li : wf st → wf (forEachBody st li).
Proof.
  destruct st as [doc fresh]. unfold wf, forEachBody. cbn [fst snd].
  intros [Hnd Hlt].
  destruct (in_dec N.eq_dec (ref li) (refs doc)) as [Hin|Hnin].
  - pose proof (refs_updateRef (ref li) (movedIcon fresh) doc Hin Hnd) as Hp.
    apply Permutation_sym in Hp. split.
    + eapply Permutation_NoDup; [exact Hp|]. rewrite refs_movedIcon.
      apply List.NoDup_app; [|exact Hnd|].
      * repeat (constructor; [cbn; lia|]). constructor.
      * intros a Ha Hd. rewrite List.Forall_forall in Hlt.
        specialize (Hlt a Hd). cbn in Ha. lia.
    + eapply Permutation_Forall; [exact Hp|]. rewrite refs_movedIcon.
      apply Forall_app. split.
      * repeat constructor; lia.
      * eapply List.Forall_impl; [|exact Hlt]. cbn. intros; lia.
  - rewrite updateRef_notin by exact Hnin. split; [exact Hnd|].
    eapply List.Forall_impl; [|exact Hlt]. cbn. intros; lia.
Qed.

Lemma wf_forEach sel st : wf st → wf (fold_left forEachBody sel st).
Proof.
  revert st. induction sel as [|li sel IH]; intros st Hwf; [exact Hwf|].
  cbn [fold_left]. apply IH. apply wf_forEachBody. exact Hwf.
Qed.

(** X12.  The post-processor keeps the element objects of the section
    distinct: the elements of the icons it inserts are new ones, and the
    identities not yet used stay above all those in use. *)
Theorem renderMovedTasks_wf (st : node * N) : wf st → wf (renderMovedTasks st).
Proof. intros Hwf. unfold renderMovedTasks. apply wf_forEach. exact Hwf. Qed.

Lemma renderMovedTasks_wf_witness :
  wf (exampleSection, 100) ∧ wf (renderMovedTasks (exampleSection, 100)).
Proof.
  split; [exact exampleSection_wf|].
  exact (renderMovedTasks_wf (exampleSection, 100) exampleSection_wf).
Defined.

(** *** Nothing is removed, added or reordered *)

Lemma filter_tag_applyAll tag m :
  (∀ r ic, m !! r = Some ic →
           List.filter (fun e => String.eqb (tagName e) tag) (elements ic) = []) →
  ∀ n, List.map ref (List.filter (fun e => String.eqb (tagName e) tag)
                       (elements (applyAll m n)))
       = List.map ref (List.filter (fun e => String.eqb (tagName e) tag) (elements n)).
Proof.
  intros Hic. induction n as [d|d|r t c kids IH] using node_ind'; try reflexivity.
  assert (Hkids : List.map ref (List.filter (fun e => String.eqb (tagName e) tag)
                     (concat (List.map elements (List.map (applyAll m) kids))))
                  = List.map ref (List.filter (fun e => String.eqb (tagName e) tag)
                     (concat (List.map elements kids)))).
  { induction kids as [|k kids IHk]; [reflexivity|].
    inversion IH as [|? ? Hk IH']; subst. cbn [List.map concat].
    rewrite !List.filter_app, !List.map_app, Hk, (IHk IH'). reflexivity. }
  cbn [applyAll]. destruct (m !! r) as [ic|] eqn:E.
  - cbn [processItem elements List.map concat List.filter tagName].
    rewrite List.filter_app, (Hic r ic E), elements_sliceFirstText. cbn [app].
    destruct (String.eqb t tag); cbn [List.map ref]; rewrite Hkids; reflexivity.
  - cbn [elements List.filter tagName].
    destruct (String.eqb t tag); cbn [List.map ref]; rewrite Hkids; reflexivity.
Qed.

Lemma filter_tag_applyAll_kids tag m kids :
  (∀ r ic, m !! r = Some ic →
           List.filter (fun e => String.eqb (tagName e) tag) (elements ic) = []) →
  List.map ref (List.filter (fun e => String.eqb (tagName e) tag)
                  (concat (List.map elements (List.map (applyAll m) kids))))
  = List.map ref (List.filter (fun e => String.eqb (tagName e) tag)
                    (concat (List.map elements kids))).
Proof.
  intros Hic. induction kids as [|k kids IHk]; [reflexivity|].
  cbn [List.map concat].
  rewrite !List.filter_app, !List.map_app, (filter_tag_applyAll tag m Hic k), IHk.
  reflexivity.
Qed.

(** X13.  For every tag name other than those of the icon's markup, and
    so for the list items, [getElementsByTagName] finds the same element
    objects in the same document order before and after the
    post-processor: it removes, adds and reorders none of them. *)
Theorem renderMovedTasks_keeps_elements (el : node) (next : N) (tag : string) :
  wf (el, next) →
  tag ≠ "svg" → tag ≠ "g" → tag ≠ "path" →
  List.map ref (getElementsByTagName tag (fst (renderMovedTasks (el, next))))
  = List.map ref (getElementsByTagName tag el).
Proof.
  intros Hwf Hsvg Hg Hpath. rewrite render_applyAll by exact Hwf.
  destruct Hwf as [Hnd _]. cbn [fst] in *.
  destruct el as [d|d|r0 t0 c0 kids0]; try reflexivity.
  pose proof (root_not_selected r0 t0 c0 kids0 next Hnd) as Hroot.
  pose proof (assign_lookup
                (List.filter isMoved (getElementsByTagName "li" (Element r0 t0 c0 kids0)))
                next) as Hicon.
  set (m := fst (assign _ next)) in *.
  unfold getElementsByTagName. cbn [applyAll]. rewrite Hroot. cbn [childNodes].
  apply filter_tag_applyAll_kids. intros r ic E.
  destruct (Hicon r ic E) as [_ (k & _ & ->)].
  assert (H1 : String.eqb "svg" tag = false) by (apply String.eqb_neq; congruence).
  assert (H2 : String.eqb "g" tag = false) by (apply String.eqb_neq; congruence).
  assert (H3 : String.eqb "path" tag = false) by (apply String.eqb_neq; congruence).
  unfold movedIcon. cbn [elements List.map concat app].
  cbn [List.filter tagName]. rewrite H1, H2, H3. reflexivity.
Qed.

Lemma renderMovedTasks_keeps_elements_witness :
  wf (exampleSection, 100)
  ∧ List.map ref (getElementsByTagName "li" (fst (renderMovedTasks (exampleSection, 100))))
    = [2; 4; 5; 6; 8].
Proof.
  split; [exact exampleSection_wf|].
  rewrite (renderMovedTasks_keeps_elements exampleSection 100 "li" exampleSection_wf)
    by discriminate.
  reflexivity.
Defined.

(** *** What is not selected is not touched *)

Lemma assigned_selected el next e ic :
  List.NoDup (refs el) →
  In e (elements el) →
  fst (assign (List.filter isMoved (getElementsByTagName "li" el)) next) !! ref e = Some ic →
  In e (List.filter isMoved (getElementsByTagName "li" el)).
Proof.
  intros Hnd He E. apply assign_lookup in E. destruct E as [Hin _].
  apply in_map_iff in Hin. destruct Hin as (li & Href & Hin).
  assert (li = e) as <-; [|exact Hin].
  apply filter_In in Hin. destruct Hin as [Hin _].
  apply items_elements in Hin. destruct Hin as [Hin _].
  apply (ref_inj (elements el)); auto.
Qed.

(** X14.  Every element of the section that the filter did not select,
    be it a list item, another element or the section itself, keeps its
    tag, its classes and its own children: its text and comment children
    as they were, its element children the same objects. *)
Theorem renderMovedTasks_frame (el : node) (next : N) (e : node) :
  wf (el, next) →
  In e (elements el) →
  ¬ In e (List.filter isMoved (getElementsByTagName "li" el)) →
  ∃ e',
    lookupRef (ref e) (fst (renderMovedTasks (el, next))) = Some e'
    ∧ tagName e' = tagName e
    ∧ classList e' = classList e
    ∧ List.map view (childNodes e') = List.map view (childNodes e).
Proof.
  intros Hwf He Hsel. rewrite render_applyAll by exact Hwf.
  destruct Hwf as [Hnd Hlt]. cbn [fst snd] in *.
  pose proof (assigned_selected el next e) as Has.
  pose proof (icons_fresh el next (ref e) Hlt (elements_ref_in e el He)) as Hfresh.
  set (m := fst (assign _ next)) in *.
  rewrite lookupRef_applyAll by exact Hfresh.
  rewrite (lookupRef_elements e el Hnd He). cbn.
  exists (applyAll m e). split; [reflexivity|].
  destruct e as [d|d|r t c kids]; try (cbn; auto; fail).
  cbn [applyAll]. cbn [ref] in Has.
  destruct (m !! r) as [ic|] eqn:E.
  - exfalso. apply Hsel. eapply Has; eauto.
  - cbn. split; [reflexivity|]. split; [reflexivity|]. apply map_view_applyAll.
Qed.

Lemma renderMovedTasks_frame_witness :
  wf (exampleSection, 100)
  ∧ ∃ e', lookupRef 5 (fst (renderMovedTasks (exampleSection, 100))) = Some e'
          ∧ classList e' = ["task-list-item"]
          ∧ List.map view (childNodes e') = [VText (lit "[>] kept")].
Proof.
  split; [exact exampleSection_wf|].
  destruct (renderMovedTasks_frame exampleSection 100
              (Element 5 "li" ["task-list-item"] [Text (lit "[>] kept")])
              exampleSection_wf) as (e' & H1 & _ & H3 & H4).
  - cbn. tauto.
  - cbn. intros [H|[H|[]]]; discriminate H.
  - exists e'. auto.
Defined.

(** X15.  The section comes out as it went in exactly when no list item
    passes the filter. *)
Theorem renderMovedTasks_changes_iff_selected (el : node) (next : N) :
  wf (el, next) →
  (fst (renderMovedTasks (el, next)) = el
   ↔ List.filter isMoved (getElementsByTagName "li" el) = []).
Proof.
  intros Hwf. split.
  - intros Heq.
    destruct (List.filter isMoved (getElementsByTagName "li" el)) as [|li sel] eqn:Esel;
      [reflexivity|exfalso].
    assert (Hin : In li (List.filter isMoved (getElementsByTagName "li" el)))
      by (rewrite Esel; left; reflexivity).
    apply filter_In in Hin. destruct Hin as [Hli Hmv].
    rewrite render_applyAll in Heq by exact Hwf.
    destruct Hwf as [Hnd Hlt]. cbn [fst snd] in *.
    pose proof (items_elements _ _ _ Hli) as [Hel Htag].
    pose proof (selected_lookup el next li Hnd Hli) as Hlook.
    pose proof (icons_fresh el next (ref li) Hlt (elements_ref_in li el Hel)) as Hfresh.
    set (m := fst (assign _ next)) in *.
    pose proof (lookupRef_applyAll m (ref li) el Hfresh) as Hl.
    rewrite Heq, (lookupRef_elements li el Hnd Hel) in Hl. cbn in Hl.
    injection Hl as Hl.
    destruct li as [d|d|r t c kids]; try discriminate.
    cbn [ref applyAll] in *. destruct (m !! r) as [ic|]; [|congruence].
    cbn [processItem] in Hl. injection Hl as Hc _.
    unfold isMoved, hasClass in Hmv. cbn [classList] in Hmv.
    apply andb_prop in Hmv. destruct Hmv as [Hc' _].
    apply negb_true_iff in Hc'. rewrite (addClass_new _ _ Hc') in Hc.
    apply (f_equal (@length string)) in Hc. rewrite length_app in Hc.
    cbn in Hc. lia.
  - intros Hnone. unfold renderMovedTasks. cbn [fst]. rewrite Hnone. reflexivity.
Qed.

Lemma renderMovedTasks_changes_iff_selected_witness :
  wf (Element 1 "p" [] [Text (lit "[>] not a list item")], 2)
  ∧ fst (renderMovedTasks (Element 1 "p" [] [Text (lit "[>] not a list item")], 2))
    = Element 1 "p" [] [Text (lit "[>] not a list item")].
Proof.
  assert (H : wf (Element 1 "p" [] [Text (lit "[>] not a list item")], 2)).
  { split; cbn.
    - repeat (constructor; [cbn; tauto|]). constructor.
    - repeat constructor; lia. }
  split; [exact H|].
  apply (renderMovedTasks_changes_iff_selected _ _ H). reflexivity.
Defined.

(** *** The text of a moved item *)

Lemma applyAll_no_keys m n :
  (∀ r, In r (refs n) → m !! r = None) → applyAll m n = n.
Proof.
  intros H. rewrite (applyAll_ext m ∅ n); [apply applyAll_empty|].
  intros r Hr. rewrite lookup_empty. apply H. exact Hr.
Qed.

Lemma trimLeft_icon x : trimLeft (getText (movedIcon 0) ++ x) = trimLeft x.
Proof. reflexivity. Qed.

(** X16.  A selected item that has no other moved item below it reads,
    once processed, as the white space of the icon followed by its former
    text with the first child text node cut by four code units.  Written
    as the glyph, a space and the rest, it reads as the rest once the
    leading white space is trimmed. *)
Theorem moved_item_text (el : node) (next : N) (li : node) :
  wf (el, next) →
  In li (getElementsByTagName "li" el) →
  isMoved li = true →
  (∀ e, In e (concat (List.map elements (childNodes li))) →
        tagName e = "li" → isMoved e = false) →
  ∃ li',
    lookupRef (ref li) (fst (renderMovedTasks (el, next))) = Some li'
    ∧ getText li'
      = getText (movedIcon 0)
        ++ textContent (Element (ref li) "li" (classList li)
                          (sliceFirstText (childNodes li)))
    ∧ ∀ d rest,
        childNodes li = Text (lit "[>] " ++ d) :: rest →
        trimLeft (getText li')
        = trimLeft (d ++ textContent (Element (ref li) "li" (classList li) rest)).
Proof.
  intros Hwf Hli Hmv Hnested. rewrite render_applyAll by exact Hwf.
  destruct Hwf as [Hnd Hlt]. cbn [fst snd] in *.
  pose proof (items_elements _ _ _ Hli) as [Hel Htag].
  pose proof (selected_lookup el next li Hnd Hli) as Hlook.
  pose proof (assigned_selected el next) as Has.
  pose proof (icons_fresh el next (ref li) Hlt (elements_ref_in li el Hel)) as Hfresh.
  set (m := fst (assign _ next)) in *.
  rewrite lookupRef_applyAll by exact Hfresh.
  rewrite (lookupRef_elements li el Hnd Hel). cbn [fmap option_fmap option_map].
  exists (applyAll m li). split; [reflexivity|].
  destruct li as [d0|d0|r t c kids]; try discriminate.
  cbn [tagName] in Htag. subst t. cbn [ref classList childNodes] in *.
  assert (Hkids : List.map (applyAll m) kids = kids).
  { rewrite <- (List.map_id kids) at 2. apply map_ext_in. intros k Hk.
    apply applyAll_no_keys. intros r' Hr'.
    destruct (m !! r') as [ic|] eqn:E; [exfalso|reflexivity].
    unfold refs in Hr'. apply in_map_iff in Hr'. destruct Hr' as (e & <- & He).
    assert (Hek : In e (concat (List.map elements kids))).
    { apply in_concat. exists (elements k). split; [apply in_map; exact Hk|exact He]. }
    assert (Hee : In e (elements el)).
    { eapply elements_trans; [exact Hel|]. right. exact Hek. }
    pose proof (Has e ic Hnd Hee E) as Hs. apply filter_In in Hs.
    destruct Hs as [Hit Hmve]. apply items_elements in Hit.
    destruct Hit as [_ Hte]. rewrite (Hnested e Hek Hte) in Hmve. discriminate. }
  cbn [applyAll]. rewrite Hkids. destruct (m !! r) as [ic|] eqn:E.
  - destruct Hlook as [_ (k & _ & ->)]. cbn [processItem].
    assert (Htext : getText (Element r "li" (addClass "task-list-item" c)
                               (movedIcon k :: sliceFirstText kids))
                    = getText (movedIcon 0)
                      ++ textContent (Element r "li" c (sliceFirstText kids)))
      by reflexivity.
    split; [exact Htext|]. intros d rest ->. rewrite Htext, trimLeft_icon.
    reflexivity.
  - rewrite Hmv in Hlook. discriminate.
Qed.

Lemma moved_item_text_witness :
  wf (exampleSection, 100)
  ∧ ∃ li',
      lookupRef 2 (fst (renderMovedTasks (exampleSection, 100))) = Some li'
      ∧ trimLeft (getText li') = lit "2021-01-05".
Proof.
  split; [exact exampleSection_wf|].
  destruct (moved_item_text exampleSection 100 movedItem exampleSection_wf)
    as (li' & H1 & _ & H3).
  - left. reflexivity.
  - reflexivity.
  - cbn. intros e [<-|[]]. discriminate.
  - exists li'. split; [exact H1|].
    rewrite (H3 [] [Element 3 "a" ["internal-link"] [Text (lit "2021-01-05")]]);
      reflexivity.
Defined.

End DomExtra.
